(** * The Ace kernel: registration, global flags and dispatch

    A shallow embedding of [src/Kernel/index.ts]: the [Kernel] class with
    its two registries, [_validateCommand], [_executeGlobalFlagsHandlers],
    [register], [getSuggestions], [flag], [find] and [handle].

    Modelling conventions.
    - A JavaScript object used as a dictionary is an association list that
      keeps the order in which its names were first assigned.  The entry
      under [__proto__], if any, is the prototype that an assignment to
      [o.__proto__] has given the object, not a property.  [Object.keys]
      lists the array indices in ascending order, then the other names in
      the order of their first assignment, and never [__proto__].
    - A property read [o[k]] is modelled on the object's own properties
      (and its replaced prototype for [k = __proto__]).  The members an
      object inherits from [Object.prototype] (such as [constructor]), or
      from a prototype it has been given, are not modelled: where a
      statement depends on such a read, it says so in a hypothesis.
    - Code raises by returning [inl e]; side effects made before the
      exception stay in the state.
    - [handle] is [async]: a rejected promise is [inl e], a resolved one is
      [inr v].
    - The caller's [argv] is an array in a heap, passed by location.
    - Flag handlers and command bodies are the user's code: they act on a
      world of type [W] and may raise; they do not touch the kernel or the
      heap.  A constructor of a command class does nothing but make the
      object.  A ghost trace records the calls the kernel makes. *)

From Stdlib Require Import String Ascii List Bool Arith NArith ZArith Lia.
From Stdlib Require Import Sorted Permutation DecimalString DecimalPos DecimalN.
Set Warnings "-register-all".
Import ListNotations.
Local Open Scope string_scope.
Local Open Scope list_scope.
Local Open Scope nat_scope.

(** ** JavaScript objects used as dictionaries *)

Module JsObject.

(** The name under which an object shows and takes its prototype. *)
Definition proto : string := "__proto__".

(** The names every object inherits from [Object.prototype]. *)
Definition object_prototype : list string :=
  ["constructor"; "__defineGetter__"; "__defineSetter__"; "hasOwnProperty";
   "__lookupGetter__"; "__lookupSetter__"; "isPrototypeOf";
   "propertyIsEnumerable"; "toString"; "valueOf"; "__proto__";
   "toLocaleString"].

(** [ToString] of a non-negative integer: its decimal numeral. *)
Definition numeral (n : N) : string := NilZero.string_of_uint (N.to_uint n).

(** The array index a name is, if any: a name that is the numeral of an
    integer from 0 to 2^32 - 2. *)
Definition array_index (k : string) : option N :=
  match NilZero.uint_of_string k with
  | Some d =>
      let n := N.of_uint d in
      if String.eqb (numeral n) k && (n <? 4294967295)%N then Some n
      else None
  | None => None
  end.

(** Array indices with their names, by ascending index. *)
Fixpoint insert_index (x : N * string) (sorted : list (N * string))
  : list (N * string) :=
  match sorted with
  | [] => [x]
  | y :: sorted' =>
      if (fst x <=? fst y)%N then x :: sorted
      else y :: insert_index x sorted'
  end.

Definition sort_indices (indices : list (N * string)) : list (N * string) :=
  fold_right insert_index [] indices.

Definition index_le (x y : N * string) : Prop := (fst x <= fst y)%N.

(** The names of a list that are array indices. *)
Definition indices_of (names : list string) : list (N * string) :=
  flat_map
    (fun k => match array_index k with Some n => [(n, k)] | None => [] end)
    names.

(** A name that [Object.keys] lists in the order of assignment: neither
    an array index nor [__proto__]. *)
Definition plain (k : string) : bool :=
  match array_index k with
  | Some _ => false
  | None => negb (String.eqb k proto)
  end.

Section Dict.
Context {V : Type}.

Definition t := list (string * V).

Definition empty : t := [].

(** [o[k]] on the own properties of [o], [None] standing for
    [undefined]; for [__proto__], the prototype [o] has been given. *)
Fixpoint get (o : t) (k : string) : option V :=
  match o with
  | [] => None
  | (k', v) :: o' => if String.eqb k' k then Some v else get o' k
  end.

(** [o[k] = v] for a [v] that is an object: an existing name keeps its
    place, a new name goes last; under [__proto__] the prototype of [o] is
    replaced. *)
Fixpoint set (o : t) (k : string) (v : V) : t :=
  match o with
  | [] => [(k, v)]
  | (k', v') :: o' =>
      if String.eqb k' k then (k', v) :: o' else (k', v') :: set o' k v
  end.

(** The names of [o] in the order of their first assignment. *)
Definition names (o : t) : list string := map fst o.

(** The array indices among the names of [o], ascending. *)
Definition sorted_indices (o : t) : list (N * string) :=
  sort_indices (indices_of (names o)).

(** The plain names of [o], in the order of their first assignment. *)
Definition plain_names (o : t) : list string := filter plain (names o).

(** [Object.keys(o)]: the array indices in ascending order, then the
    plain names in the order of their first assignment. *)
Definition keys (o : t) : list string :=
  map snd (sorted_indices o) ++ plain_names o.

(** The own properties of [o] in the order of [Object.keys]. *)
Definition entries (o : t) : list (string * V) :=
  flat_map
    (fun k => match get o k with Some v => [(k, v)] | None => [] end)
    (keys o).

(** A read of [k] from [o] stays on what [get] models: [o] holds [k], or
    [o] has the prototype it was made with and [k] is not a member of
    it. *)
Definition own_read (o : t) (k : string) : Prop :=
  get o k <> None \/ (get o proto = None /\ ~ In k object_prototype).

End Dict.

Arguments t : clear implicits.

End JsObject.

(** ** Values and descriptors *)

(** The values a parsed option can hold ([getopts.ParsedOptions] maps a
    flag name to [any]): data, never a function.  Numbers are only carried
    around, never computed with; [VObject] is an object that is not an
    array and holds no function. *)
Inductive JsValue : Type :=
| VUndefined
| VNull
| VBool (b : bool)
| VNumber (n : Z)
| VString (s : string)
| VArray (items : list JsValue)
| VObject.

(** Modelled from the spec: the type of an argument; [src/Contracts],
    which declares it, is absent, and section 3 gives a plain-value and a
    ["spread"] type. *)
Inductive ArgType : Type := ArgValue | ArgSpread.

Module CommandArg.
(** Modelled from the spec: [CommandArg] is declared in [src/Contracts],
    which is absent; section 3 gives an Argument Descriptor as
    [{name, required, type}]. *)
Record t : Type := {
  name : string;
  required : bool;
  type : ArgType
}.
End CommandArg.

(** Modelled from the spec: the type of a flag; [src/Contracts], which
    declares it, is absent, and section 3 lists these four. *)
Inductive FlagType : Type := FlagBoolean | FlagString | FlagNumber | FlagArray.

Module CommandFlag.
(** Modelled from the spec: [CommandFlag] is declared in [src/Contracts],
    which is absent; section 3 gives a Flag Descriptor as
    [{name, type, alias?, description?}]. *)
Record t : Type := {
  name : string;
  type : FlagType;
  alias : option string;
  description : option string
}.
End CommandFlag.

(** [arg.type === 'spread'] *)
Definition is_spread (arg : CommandArg.t) : bool :=
  match CommandArg.type arg with ArgSpread => true | ArgValue => false end.

(** Modelled from the spec: the result of the option parser,
    [{_: string[], [flagName]: value}] (section 1 and section 6).
    [named] holds what a read of each name other than [_] gives, a name it
    does not hold reading as [undefined]. *)
Record ParsedOptions : Type := {
  positionals : list string;
  named : JsObject.t JsValue
}.

(** [parsedOptions._] as a value. *)
Definition positionals_value (options : ParsedOptions) : JsValue :=
  VArray (map VString (positionals options)).

(** [options[name]]: the key [_] holds the positionals. *)
Definition options_get (options : ParsedOptions) (name : string) : JsValue :=
  if String.eqb name "_" then positionals_value options
  else match JsObject.get (named options) name with
       | Some v => v
       | None => VUndefined
       end.

(** [value.length] of a string or an array. *)
Definition js_length (value : JsValue) : nat :=
  match value with
  | VString s => String.length s
  | VArray items => List.length items
  | _ => 0
  end.

(** [typeof (value) === 'string' || Array.isArray(value)] *)
Definition is_string_or_array (value : JsValue) : bool :=
  match value with
  | VString _ | VArray _ => true
  | _ => false
  end.

(** [value === undefined] *)
Definition is_undefined (value : JsValue) : bool :=
  match value with
  | VUndefined => true
  | _ => false
  end.

(** An object or [null]: what the setter of [__proto__] takes as a
    prototype. *)
Definition is_object_or_null (value : JsValue) : bool :=
  match value with
  | VNull | VArray _ | VObject => true
  | _ => false
  end.

(** A property key made from a value that may be [undefined]. *)
Definition property_key (k : option string) : string :=
  match k with
  | Some s => s
  | None => "undefined"
  end.

(** ** Exceptions *)

(** One constructor per [throw] of the kernel, one for the [TypeError] the
    engine raises (a call of something that is not a function, a property
    read on [undefined]), and one for whatever the code outside the kernel
    raises (the parser, a flag handler, a command body). *)
Inductive exn : Type :=
| MissingCommandName (className : string)
| OptionalBeforeRequired (optionalArg requiredArg : string)
| SpreadNotLast
| NotRegistered (argv0 : string)
| TypeError (text : string)
| Foreign (payload : string).


(** ** Command types, global flags and the kernel's registries *)

(** The fields of a command instance: [parsed] holds the parse result, the
    others hold values.  Under [__proto__], [FPrototype] is the prototype
    the instance has been given; a field of that name exists only in an
    instance whose prototype is [null]. *)
Inductive Field : Type :=
| FParsed (options : ParsedOptions)
| FValue (value : JsValue)
| FPrototype (value : JsValue).

Definition CommandInstance : Type := JsObject.t Field.

(** A computation of the user's code. *)
Definition User (W A : Type) : Type := W -> (string + A) * W.

Module Command.
(** Modelled from the spec: [CommandConstructorContract] is declared in
    [src/Contracts], which is absent; section 6 gives the Command Type
    contract.  [name] is the name of the class, [commandName] may be
    [undefined], [handle] is the [handle()] method of the instances, run
    with the instance as [this]. *)
Record t (W : Type) : Type := {
  name : string;
  commandName : option string;
  description : string;
  args : list CommandArg.t;
  flags : list CommandFlag.t;
  handle : CommandInstance -> User W JsValue
}.
Arguments name {W}.
Arguments commandName {W}.
Arguments description {W}.
Arguments args {W}.
Arguments flags {W}.
Arguments handle {W}.
End Command.

(** [GlobalFlagHandler]: called with the value, the parse result and the
    command, if any. *)
Definition GlobalFlagHandler (W : Type) : Type :=
  JsValue -> ParsedOptions -> option (Command.t W) -> User W unit.

Module GlobalFlag.
(** [CommandFlag & { handler: GlobalFlagHandler }] *)
Record t (W : Type) : Type := {
  name : string;
  handler : GlobalFlagHandler W;
  type : option FlagType;
  alias : option string;
  description : option string
}.
Arguments name {W}.
Arguments handler {W}.
Arguments type {W}.
Arguments alias {W}.
Arguments description {W}.
End GlobalFlag.

(** The [options] argument of [flag]: a partial flag descriptor without
    its name, with the keys its type declares.  [opt_type] is [None] when
    the key [type] is not there and [Some None] when it is there and holds
    [undefined]; [alias] and [description] read as [undefined] in both
    cases. *)
Record FlagOptions : Type := {
  opt_type : option (option FlagType);
  opt_alias : option string;
  opt_description : option string
}.

(** The calls the kernel makes to the code around it, in order. *)
Inductive Event (W : Type) : Type :=
| EvParse (argv : list string) (command : option (Command.t W))
| EvGlobalFlag (name : string) (value : JsValue) (options : ParsedOptions)
    (command : option (Command.t W))
| EvNew (command : Command.t W)
| EvHandle (command : Command.t W) (instance : CommandInstance).
Arguments EvParse {W}.
Arguments EvGlobalFlag {W}.
Arguments EvNew {W}.
Arguments EvHandle {W}.

(** Modelled from the spec: the parser of [src/Parser], which is absent;
    section 6 gives its contract.  [parse flags argv command] is
    [new Parser(flags).parse(argv, command)]; it may raise. *)
Class Collaborators (W : Type) : Type := {
  parse : JsObject.t (GlobalFlag.t W) -> list string ->
          option (Command.t W) -> string + ParsedOptions
}.

(** ** The kernel *)

(** [public commands] and [public flags]. *)
Record Kernel (W : Type) : Type := {
  commands : JsObject.t (Command.t W);
  flags : JsObject.t (GlobalFlag.t W)
}.
Arguments commands {W}.
Arguments flags {W}.

Definition loc : Type := nat.

(** What a method can read and change: the kernel it is called on, the
    arrays of the caller, the world of the user's code; and the trace. *)
Record State (W : Type) : Type := {
  this : Kernel W;
  heap : list (list string);
  world : W;
  trace : list (Event W)
}.
Arguments this {W}.
Arguments heap {W}.
Arguments world {W}.
Arguments trace {W}.

(** State and exceptions; the state survives an exception. *)
Definition M (W A : Type) : Type := State W -> (exn + A) * State W.

Definition ret {W A : Type} (a : A) : M W A := fun s => (inr a, s).

Definition bind {W A B : Type} (m : M W A) (f : A -> M W B) : M W B :=
  fun s =>
    match m s with
    | (inl e, s') => (inl e, s')
    | (inr a, s') => f a s'
    end.

Definition throw {W A : Type} (e : exn) : M W A := fun s => (inl e, s).

Declare Scope kernel_scope.
Delimit Scope kernel_scope with kernel.
Notation "x <- m ;; k" := (bind m (fun x => k))
  (at level 61, m at next level, right associativity) : kernel_scope.
Notation "m ;; k" := (bind m (fun _ => k))
  (at level 61, right associativity) : kernel_scope.
Local Open Scope kernel_scope.

(** [array.forEach(f)] *)
Fixpoint forEach {W A : Type} (items : list A) (f : A -> M W unit) : M W unit :=
  match items with
  | [] => ret tt
  | item :: rest => f item ;; forEach rest f
  end.

Section Primitives.
Context {W : Type}.

Definition get_this : M W (Kernel W) := fun s => (inr (this s), s).

(** [this.commands[key] = command] *)
Definition set_command (key : string) (command : Command.t W) : M W unit :=
  fun s =>
    (inr tt,
     {| this := {| commands := JsObject.set (commands (this s)) key command;
                   flags := flags (this s) |};
        heap := heap s; world := world s; trace := trace s |}).

(** [this.flags[key] = f] *)
Definition set_flag (key : string) (f : GlobalFlag.t W) : M W unit :=
  fun s =>
    (inr tt,
     {| this := {| commands := commands (this s);
                   flags := JsObject.set (flags (this s)) key f |};
        heap := heap s; world := world s; trace := trace s |}).

(** The contents of an array; a location that holds nothing reads as the
    empty array. *)
Definition read (l : loc) : M W (list string) :=
  fun s => (inr (nth l (heap s) []), s).

Fixpoint update (h : list (list string)) (l : loc) (a : list string)
  : list (list string) :=
  match h, l with
  | [], _ => []
  | _ :: h', O => a :: h'
  | a' :: h', S l' => a' :: update h' l' a
  end.

(** [array.splice(start)]: removes the elements from [start] on from the
    array itself and returns them in a new array. *)
Definition splice (l : loc) (start : nat) : M W (list string) :=
  fun s =>
    let a := nth l (heap s) [] in
    (inr (skipn start a),
     {| this := this s; heap := update (heap s) l (firstn start a);
        world := world s; trace := trace s |}).

Definition log (e : Event W) : M W unit :=
  fun s =>
    (inr tt,
     {| this := this s; heap := heap s; world := world s;
        trace := trace s ++ [e] |}).

(** A call of the user's code. *)
Definition user {A : Type} (u : User W A) : M W A :=
  fun s =>
    let '(r, w) := u (world s) in
    (match r with inl payload => inl (Foreign payload) | inr a => inr a end,
     {| this := this s; heap := heap s; world := w; trace := trace s |}).

(** A pure computation that may throw. *)
Definition lift {A : Type} (r : exn + A) : M W A := fun s => (r, s).

End Primitives.

(** ** The methods of [Kernel] *)

Section Methods.
Context {W : Type} {collaborators : Collaborators W}.

(** The [forEach] of [_validateCommand]: [length] is
    [command.args.length], [optionalArg] the variable the callback
    assigns, [index] the index of the head of [rest]. *)
Fixpoint validate_each (length : nat) (optionalArg : option CommandArg.t)
  (index : nat) (rest : list CommandArg.t) : exn + unit :=
  match rest with
  | [] => inr tt
  | arg :: rest' =>
      match optionalArg, CommandArg.required arg with
      | Some optional, true =>
          inl (OptionalBeforeRequired (CommandArg.name optional)
                 (CommandArg.name arg))
      | _, _ =>
          if is_spread arg && (index + 1 <? length) then inl SpreadNotLast
          else
            validate_each length
              (if negb (CommandArg.required arg) then Some arg
               else optionalArg)
              (index + 1) rest'
      end
  end.

(** [!command.commandName]: [undefined] or the empty string. *)
Definition no_name (commandName : option string) : bool :=
  match commandName with
  | None => true
  | Some s => String.eqb s ""
  end.

(** [_validateCommand]: returns when the command is valid. *)
Definition _validateCommand (command : Command.t W) : exn + unit :=
  if no_name (Command.commandName command) then
    inl (MissingCommandName (Command.name command))
  else
    validate_each (List.length (Command.args command)) None 0
      (Command.args command).

(** The callback of the [forEach] of [_executeGlobalFlagsHandlers]. *)
Definition execute_handler (options : ParsedOptions)
  (command : option (Command.t W)) (name : string) : M W unit :=
  let value := options_get options name in
  if is_undefined value then ret tt
  else if is_string_or_array value && (js_length value =? 0) then ret tt
  else
    k <- get_this ;;
    match JsObject.get (flags k) name with
    | None => throw (TypeError "Cannot read property 'handler' of undefined")
    | Some f =>
        log (EvGlobalFlag name (options_get options name) options command) ;;
        user (GlobalFlag.handler f (options_get options name) options command)
    end.

(** [_executeGlobalFlagsHandlers] *)
Definition _executeGlobalFlagsHandlers (options : ParsedOptions)
  (command : option (Command.t W)) : M W unit :=
  k <- get_this ;;
  let globalFlags := JsObject.keys (flags k) in
  forEach globalFlags (execute_handler options command).

(** [register]; the result [this] is left out. *)
Definition register (commands : list (Command.t W)) : M W unit :=
  forEach commands (fun command =>
    lift (_validateCommand command) ;;
    set_command (property_key (Command.commandName command)) command).

(** [Object.assign({ name, handler, type: 'boolean' }, options)]: a key
    of [options] goes over the default also when it holds [undefined]. *)
Definition assign_flag (name : string) (handler : GlobalFlagHandler W)
  (options : FlagOptions) : GlobalFlag.t W :=
  {| GlobalFlag.name := name;
     GlobalFlag.handler := handler;
     GlobalFlag.type :=
       match opt_type options with
       | Some type => type
       | None => Some FlagBoolean
       end;
     GlobalFlag.alias := opt_alias options;
     GlobalFlag.description := opt_description options |}.

(** [flag]; the result [this] is left out. *)
Definition flag (name : string) (handler : GlobalFlagHandler W)
  (options : FlagOptions) : M W unit :=
  set_flag name (assign_flag name handler options).

(** [argv[0]] as a property key. *)
Definition argv0_key (argv : list string) : string :=
  property_key (nth_error argv 0).

(** [this.commands[argv[0]] || null] on the own properties of the
    registry: a command type is never falsy.  What the read finds in the
    prototype of the registry for a name the registry does not hold
    ([constructor] and the like) is not modelled. *)
Definition find (argv : list string) : M W (option (Command.t W)) :=
  k <- get_this ;;
  ret (JsObject.get (commands k) (argv0_key argv)).

(** [parser.parse(argv, command)] for [parser = new Parser(flags)]. *)
Definition call_parse (parser_flags : JsObject.t (GlobalFlag.t W))
  (argv : list string) (command : option (Command.t W))
  : M W ParsedOptions :=
  log (EvParse argv command) ;;
  match parse parser_flags argv command with
  | inl payload => throw (Foreign payload)
  | inr options => ret options
  end.

(** [new command()]: an object without fields of its own. *)
Definition new (command : Command.t W) : M W CommandInstance :=
  log (EvNew command) ;; ret JsObject.empty.

(** [parsedOptions._[i]] *)
Definition positional_at (options : ParsedOptions) (i : nat) : JsValue :=
  match nth_error (positionals options) i with
  | Some s => VString s
  | None => VUndefined
  end.

(** [parsedOptions._.slice(i)] *)
Definition positionals_from (options : ParsedOptions) (i : nat) : JsValue :=
  VArray (map VString (skipn i (positionals options))).

(** [commandInstance[name] = value].  Under [__proto__] the instance
    inherits a setter as long as its prototype is not [null]: the setter
    makes an object or [null] the prototype of the instance and does
    nothing with another value.  Once the prototype is [null] the name is
    a field like the others. *)
Definition assign (commandInstance : CommandInstance) (name : string)
  (value : JsValue) : CommandInstance :=
  if String.eqb name JsObject.proto then
    match JsObject.get commandInstance JsObject.proto with
    | Some (FPrototype VNull) | Some (FValue _) =>
        JsObject.set commandInstance name (FValue value)
    | _ =>
        if is_object_or_null value then
          JsObject.set commandInstance name (FPrototype value)
        else commandInstance
    end
  else JsObject.set commandInstance name (FValue value).

(** The [for] loop of [handle] from [i] on, [rest] being
    [command.args] from index [i]. *)
Fixpoint set_args (options : ParsedOptions) (i : nat)
  (rest : list CommandArg.t) (commandInstance : CommandInstance) : CommandInstance :=
  match rest with
  | [] => commandInstance
  | arg :: rest' =>
      if is_spread arg then
        assign commandInstance (CommandArg.name arg)
          (positionals_from options i)
      else
        set_args options (i + 1) rest'
          (assign commandInstance (CommandArg.name arg)
             (positional_at options i))
  end.

(** The [forEach] over [command.flags] of [handle]. *)
Definition set_flags (options : ParsedOptions) (flags : list CommandFlag.t)
  (commandInstance : CommandInstance) : CommandInstance :=
  fold_left
    (fun instance f =>
       assign instance (CommandFlag.name f)
         (options_get options (CommandFlag.name f)))
    flags commandInstance.

(** [commandInstance.handle()]: the method comes from the prototype the
    instance was made with.  A field called [handle] hides it, and an
    instance that has been given another prototype does not inherit it;
    what is found then is not a function. *)
Definition call_handle (command : Command.t W) (commandInstance : CommandInstance)
  : M W JsValue :=
  match JsObject.get commandInstance "handle",
        JsObject.get commandInstance JsObject.proto with
  | None, None =>
      log (EvHandle command commandInstance) ;;
      user (Command.handle command commandInstance)
  | _, _ => throw (TypeError "commandInstance.handle is not a function")
  end.

(** [handle]: [a] is the contents of the caller's array when the call
    starts, [parser] the flags [new Parser(this.flags)] is made of. *)
Definition handle (argv : loc) : M W JsValue :=
  a <- read argv ;;
  match a with
  | [] => ret VUndefined
  | argv0 :: _ =>
      let hasMentionedCommand := negb (String.prefix "-" argv0) in
      k <- get_this ;;
      let parser := flags k in
      if negb hasMentionedCommand then
        parsedOptions <- call_parse parser a None ;;
        _executeGlobalFlagsHandlers parsedOptions None ;;
        ret VUndefined
      else
        found <- find a ;;
        match found with
        | None => throw (NotRegistered argv0)
        | Some command =>
            tail <- splice argv 1 ;;
            parsedOptions <- call_parse parser tail (Some command) ;;
            _executeGlobalFlagsHandlers parsedOptions (Some command) ;;
            commandInstance <- new command ;;
            let commandInstance :=
              JsObject.set commandInstance "parsed" (FParsed parsedOptions) in
            let commandInstance :=
              set_args parsedOptions 0 (Command.args command) commandInstance in
            let commandInstance :=
              set_flags parsedOptions (Command.flags command) commandInstance in
            call_handle command commandInstance
        end
  end.

End Methods.

(** ** The vocabulary of the specification *)









(** Section 4.2 in the spec's words: the value is not absent and, when it
    is a string or an ordered sequence, it is not empty. *)
Definition spec_fires (value : JsValue) : Prop :=
  value <> VUndefined /\
  (forall s, value = VString s -> s <> "") /\
  (forall items, value = VArray items -> items <> []).

(** The two guards of [execute_handler] as one test. *)
Definition fires (value : JsValue) : bool :=
  negb (is_undefined value)
  && negb (is_string_or_array value && (js_length value =? 0)).

(** Section 4.4, step 6, in the spec's words: the argument at index [i] is
    populated when no argument before it is a spread; a spread receives
    the positionals from [i] on, any other argument the one at [i]. *)
Definition spec_populated (args : list CommandArg.t) (i : nat) : bool :=
  forallb (fun arg => negb (is_spread arg)) (firstn i args).

Definition spec_arg_value (options : ParsedOptions) (arg : CommandArg.t)
  (i : nat) : JsValue :=
  if is_spread arg then VArray (map VString (skipn i (positionals options)))
  else match nth_error (positionals options) i with
       | Some s => VString s
       | None => VUndefined
       end.

Definition spec_arg_assignments (options : ParsedOptions)
  (args : list CommandArg.t) : list (string * Field) :=
  map (fun '(i, arg) =>
         (CommandArg.name arg, FValue (spec_arg_value options arg i)))
    (filter (fun '(i, _) => spec_populated args i)
       (combine (seq 0 (List.length args)) args)).

Definition spec_flag_assignments (options : ParsedOptions)
  (flags : list CommandFlag.t) : list (string * Field) :=
  map (fun f =>
         (CommandFlag.name f,
          FValue (options_get options (CommandFlag.name f))))
    flags.

(** [instance[k] = v] for each pair, in order. *)
Definition assign_all (assignments : list (string * Field))
  (instance : CommandInstance) : CommandInstance :=
  fold_left (fun o '(k, v) => JsObject.set o k v) assignments instance.

(** The event of a handler call. *)
Definition flag_event {W : Type} (options : ParsedOptions)
  (command : option (Command.t W)) (name : string) : Event W :=
  EvGlobalFlag name (options_get options name) options command.

(** The registered flags whose value in [options] fires, in the order in
    which [Object.keys] lists them. *)
Definition firing {W : Type} (options : ParsedOptions)
  (registry : JsObject.t (GlobalFlag.t W)) : JsObject.t (GlobalFlag.t W) :=
  filter (fun '(name, _) => fires (options_get options name))
    (JsObject.entries registry).

(** A call of the handler of one registered flag. *)
Definition call_handler {W : Type} (options : ParsedOptions)
  (command : option (Command.t W)) (entry : string * GlobalFlag.t W)
  : M W unit :=
  log (flag_event options command (fst entry)) ;;
  user (GlobalFlag.handler (snd entry) (options_get options (fst entry))
          options command).

(** The key and the command that [register] stores. *)
Definition stored {W : Type} (command : Command.t W) : string * Command.t W :=
  (property_key (Command.commandName command), command).


(** The state with another command registry. *)
Definition with_commands {W : Type} (registry : JsObject.t (Command.t W))
  (s : State W) : State W :=
  {| this := {| commands := registry; flags := flags (this s) |};
     heap := heap s; world := world s; trace := trace s |}.

(** What the kernel calls on the path without a command name. *)
Definition flag_only_event {W : Type} (e : Event W) : bool :=
  match e with
  | EvParse _ None | EvGlobalFlag _ _ _ None => true
  | _ => false
  end.

(** ** Auxiliary notions of the proofs *)


(** An entry of the command registry as [register] makes it. *)
Definition well_stored {W : Type} (entry : string * Command.t W) : Prop :=
  no_name (Command.commandName (snd entry)) = false /\
  Command.commandName (snd entry) = Some (fst entry).

(** The errors that come from the code around the kernel or from the
    engine. *)
Definition is_foreign (e : exn) : bool :=
  match e with
  | TypeError _ | Foreign _ => true
  | _ => false
  end.

(** [m] leaves the kernel and the heap as they are, adds only events that
    satisfy [P] to the trace and raises only foreign errors. *)
Definition calls {W A : Type} (P : Event W -> bool) (m : M W A) : Prop :=
  forall s,
    this (snd (m s)) = this s /\
    heap (snd (m s)) = heap s /\
    (exists delta, trace (snd (m s)) = trace s ++ delta /\
                   forallb P delta = true) /\
    (forall e, fst (m s) = inl e -> is_foreign e = true).


Definition any_event {W : Type} (e : Event W) : bool := true.

(** The state in which the parser is called on the path with a command:
    the array at [argv] cut down to its first element. *)
Definition spliced {W : Type} (argv : loc) (s : State W) : State W :=
  {| this := this s;
     heap := update (heap s) argv (firstn 1 (nth argv (heap s) []));
     world := world s; trace := trace s |}.

(** The rest of [handle] once the command is found. *)
Definition dispatch {W : Type} {collaborators : Collaborators W}
  (parser : JsObject.t (GlobalFlag.t W)) (command : Command.t W)
  (tail : list string) : M W JsValue :=
  parsedOptions <- call_parse parser tail (Some command) ;;
  _executeGlobalFlagsHandlers parsedOptions (Some command) ;;
  commandInstance <- new command ;;
  call_handle command
    (set_flags parsedOptions (Command.flags command)
       (set_args parsedOptions 0 (Command.args command)
          (JsObject.set commandInstance "parsed" (FParsed parsedOptions)))).

(** The arguments of [rest], numbered from [start], that are populated
    when [rest] comes after [pre] in the argument list. *)
Definition populated_from (pre rest : list CommandArg.t) (start : nat)
  : list (nat * CommandArg.t) :=
  filter (fun '(i, _) => spec_populated (pre ++ rest) i)
    (combine (seq start (List.length rest)) rest).

Definition arg_assignment (options : ParsedOptions)
  (numbered : nat * CommandArg.t) : string * Field :=
  (CommandArg.name (snd numbered),
   FValue (spec_arg_value options (snd numbered) (fst numbered))).

(** ** Fixtures for the examples *)

Module Fixtures.

(** The world of the examples: the lines the user's code has written. *)
Definition Console : Type := list string.

(** A stand-in for the parser: [--name=value] is a string flag, [--name] a
    boolean one, anything else a positional. *)
Definition parse_word (options : ParsedOptions) (word : string)
  : ParsedOptions :=
  if String.prefix "--" word then
    let body := String.substring 2 (String.length word - 2) word in
    match String.index 0 "=" body with
    | Some i =>
        {| positionals := positionals options;
           named := JsObject.set (named options) (String.substring 0 i body)
                      (VString (String.substring (i + 1)
                                  (String.length body - (i + 1)) body)) |}
    | None =>
        {| positionals := positionals options;
           named := JsObject.set (named options) body (VBool true) |}
    end
  else
    {| positionals := positionals options ++ [word];
       named := named options |}.

Definition parse_words (argv : list string) : ParsedOptions :=
  fold_left parse_word argv {| positionals := []; named := JsObject.empty |}.

Definition collaborators : Collaborators Console :=
  {| parse := fun _ argv _ => inr (parse_words argv) |}.

(** A parser that rejects everything. *)
Definition strict : Collaborators Console :=
  {| parse := fun _ _ _ => inl "invalid arguments" |}.

Definition arg (name : string) (required : bool) (type : ArgType)
  : CommandArg.t :=
  {| CommandArg.name := name; CommandArg.required := required;
     CommandArg.type := type |}.

Definition string_flag (name : string) : CommandFlag.t :=
  {| CommandFlag.name := name; CommandFlag.type := FlagString;
     CommandFlag.alias := None; CommandFlag.description := None |}.

(** A body that writes one line and returns [undefined]. *)
Definition says (line : string) : CommandInstance -> User Console JsValue :=
  fun _ console => (inr VUndefined, console ++ [line]).

(** A body that returns the field [name] of its instance. *)
Definition returns_name : CommandInstance -> User Console JsValue :=
  fun instance console =>
    (inr (match JsObject.get instance "name" with
          | Some (FValue v) => v
          | _ => VUndefined
          end), console).

Definition command (name : string) (commandName : option string)
  (args : list CommandArg.t) (flags : list CommandFlag.t)
  (handle : CommandInstance -> User Console JsValue) : Command.t Console :=
  {| Command.name := name; Command.commandName := commandName;
     Command.description := ""; Command.args := args;
     Command.flags := flags; Command.handle := handle |}.

(** The commands of [example/index.ts]. *)
Definition Greet : Command.t Console :=
  command "Greet" (Some "greet")
    [arg "name" true ArgValue; arg "age" true ArgValue]
    [string_flag "env"; string_flag "entrypoint"]
    returns_name.

Definition MakeController : Command.t Console :=
  command "MakeController" (Some "make:controller") [] [] (says "controller").

Definition MakeModel : Command.t Console :=
  command "MakeModel" (Some "make:model") [] [] (says "model").



(** An optional argument followed by a spread that is required. *)
Definition Copy : Command.t Console :=
  command "Copy" (Some "copy")
    [arg "target" false ArgValue; arg "files" true ArgSpread] []
    (says "copy").

(** A spread that is not the last argument. *)
Definition Move : Command.t Console :=
  command "Move" (Some "move")
    [arg "files" true ArgSpread; arg "target" true ArgValue] []
    (says "move").

(** A required argument, an optional one and an optional spread. *)
Definition Pack : Command.t Console :=
  command "Pack" (Some "pack")
    [arg "archive" true ArgValue; arg "level" false ArgValue;
     arg "files" false ArgSpread]
    [string_flag "env"]
    (says "pack").

(** A handler that writes the value it receives. *)
Definition writes (label : string) : GlobalFlagHandler Console :=
  fun value _ _ console =>
    (inr tt,
     console ++ [String.append label
                   (String.append "=" match value with
                                      | VString v => v
                                      | _ => ""
                                      end)]).

(** A handler that raises. *)
Definition fails (reason : string) : GlobalFlagHandler Console :=
  fun _ _ _ console => (inl reason, console).

Definition string_option : FlagOptions :=
  {| opt_type := Some (Some FlagString); opt_alias := None;
     opt_description := None |}.

Definition no_option : FlagOptions :=
  {| opt_type := None; opt_alias := None; opt_description := None |}.

Definition env_flag : GlobalFlag.t Console :=
  assign_flag "env" (writes "NODE_ENV") string_option.

Definition empty_kernel : Kernel Console :=
  {| commands := JsObject.empty; flags := JsObject.empty |}.

(** A state whose only array is [argv]. *)
Definition start (k : Kernel Console) (argv : list string) : State Console :=
  {| this := k; heap := [argv]; world := []; trace := [] |}.

(** The kernel of [example/index.ts]. *)
Definition example_kernel : Kernel Console :=
  {| commands := [stored Greet; stored MakeController; stored MakeModel];
     flags := [("env", env_flag)] |}.

(** A command with an argument called [__proto__], and one with a spread
    of that name. *)
Definition Tag : Command.t Console :=
  command "Tag" (Some "tag") [arg "__proto__" true ArgValue] [] (says "tag").

Definition Collect : Command.t Console :=
  command "Collect" (Some "collect") [arg "__proto__" true ArgSpread] []
    (says "collect").

Definition proto_kernel : Kernel Console :=
  {| commands := [stored Tag; stored Collect]; flags := [] |}.

(** [kernel.flag('verbose', ...)], then [kernel.flag('10', ...)], then
    [kernel.flag('9', ...)]. *)
Definition numbered_flags : M Console unit :=
  flag "verbose" (writes "verbose") string_option ;;
  flag "10" (writes "ten") string_option ;;
  flag "9" (writes "nine") string_option.

Definition numbered_kernel : Kernel Console :=
  {| commands := [];
     flags :=
       [("verbose", assign_flag "verbose" (writes "verbose") string_option);
        ("10", assign_flag "10" (writes "ten") string_option);
        ("9", assign_flag "9" (writes "nine") string_option)] |}.

(** Two flags under one name. *)
Definition flag_twice (name : string) : M Console unit :=
  flag name (writes "first") string_option ;;
  flag name (writes "second") no_option.

End Fixtures.

(** ** Suggestions *)

(** The [fast-levenshtein] package the kernel requires:
    [levenshtein.get(a, b)]. *)
Class Levenshtein : Type := {
  levenshtein_get : string -> string -> nat
}.

Section Suggestions.
Context {W : Type} {levenshtein : Levenshtein}.

(** [getSuggestions (name, distance = 3)]: [None] is an argument left
    out; the distance is an integer. *)
Definition getSuggestions (name : string) (distance : option Z)
  : M W (list string) :=
  let distance := match distance with Some d => d | None => 3%Z end in
  k <- get_this ;;
  ret (filter
         (fun commandName =>
            (Z.of_nat (levenshtein_get name commandName) <=? distance)%Z)
         (JsObject.keys (commands k))).

(** The list [getSuggestions] returns. *)
Definition suggestions (name : string) (distance : option Z) (s : State W)
  : list string :=
  match fst (getSuggestions name distance s) with
  | inr names => names
  | inl _ => []
  end.

End Suggestions.

(** ** Further notions of the proofs *)

(** An entry of the command registry that passes [_validateCommand] and
    sits under its own name. *)
Definition valid_entry {W : Type} (entry : string * Command.t W) : Prop :=
  _validateCommand (snd entry) = inr tt /\
  Command.commandName (snd entry) = Some (fst entry).

(** An entry of the flag registry whose descriptor carries its key. *)
Definition named_entry {W : Type} (entry : string * GlobalFlag.t W) : Prop :=
  GlobalFlag.name (snd entry) = fst entry.

(** The call of a flag handler. *)
Definition is_flag_call {W : Type} (e : Event W) : bool :=
  match e with
  | EvGlobalFlag _ _ _ _ => true
  | _ => false
  end.

(** What the loop of [handle] assigns to the argument at index [i]. *)
Definition arg_value (options : ParsedOptions) (i : nat)
  (arg : CommandArg.t) : JsValue :=
  if is_spread arg then positionals_from options i
  else positional_at options i.

(** The loop of [handle] without its [break]: one assignment for every
    argument of [rest], numbered from [i]. *)
Definition assign_every_arg (options : ParsedOptions) (i : nat)
  (rest : list CommandArg.t) (commandInstance : CommandInstance)
  : CommandInstance :=
  fold_left
    (fun instance numbered =>
       assign instance (CommandArg.name (snd numbered))
         (arg_value options (fst numbered) (snd numbered)))
    (combine (seq i (List.length rest)) rest) commandInstance.

(** ** Further fixtures *)

Module MoreFixtures.
Import Fixtures.

(** The edit distance of [fast-levenshtein] (insertions, deletions and
    substitutions), computed row by row: [next_row x b prev left] is the
    row of the character [x] after its first cell [left], from the row
    [prev] before it. *)
Fixpoint next_row (x : Ascii.ascii) (b : string) (prev : list nat)
  (left : nat) : list nat :=
  match b, prev with
  | String y b', diagonal :: ((up :: _) as prev') =>
      let cell :=
        Nat.min (Nat.min (S up) (S left))
          ((if Ascii.eqb x y then 0 else 1) + diagonal) in
      cell :: next_row x b' prev' cell
  | _, _ => []
  end.

Fixpoint last_row (a b : string) (prev : list nat) (i : nat) : list nat :=
  match a with
  | EmptyString => prev
  | String x a' => last_row a' b (S i :: next_row x b prev (S i)) (S i)
  end.

Definition edit_distance (a b : string) : nat :=
  last (last_row a b (seq 0 (S (String.length b))) 0) 0.

Definition levenshtein : Levenshtein :=
  {| levenshtein_get := edit_distance |}.

(** The registry of the suggestion example of section 8. *)
Definition UnknownFoo : Command.t Console :=
  command "UnknownFoo" (Some "unknown:foo") [] [] (says "foo").

Definition KnownCmd : Command.t Console :=
  command "KnownCmd" (Some "known:cmd") [] [] (says "cmd").

Definition suggestion_kernel : Kernel Console :=
  {| commands := [stored UnknownFoo; stored KnownCmd; stored MakeModel];
     flags := [] |}.

(** A command with a flag called [handle]. *)
Definition Hidden : Command.t Console :=
  command "Hidden" (Some "hidden") [] [string_flag "handle"] (says "hidden").

Definition hidden_kernel : Kernel Console :=
  {| commands := [stored Hidden]; flags := [] |}.

(** A kernel whose [env] flag has a handler that raises. *)
Definition failing_kernel : Kernel Console :=
  {| commands := [stored Greet];
     flags :=
       [("env",
         assign_flag "env" (fails "no such environment") string_option)] |}.

(** A command whose name starts with the flag marker. *)
Definition DashHelp : Command.t Console :=
  command "DashHelp" (Some "--help") [] [] (says "help").

(** The commands of [example/index.ts] with all their flags. *)
Definition array_flag (name : string) (alias : string) : CommandFlag.t :=
  {| CommandFlag.name := name; CommandFlag.type := FlagArray;
     CommandFlag.alias := Some alias; CommandFlag.description := None |}.

Definition GreetExample : Command.t Console :=
  command "Greet" (Some "greet")
    [arg "name" true ArgValue; arg "age" true ArgValue]
    [string_flag "env"; string_flag "entrypoint"; array_flag "fragment" "f"]
    (says "greet").

(** [kernel.register([Greet, MakeController, MakeModel])] and
    [kernel.flag('env', ..., { type: 'string' })] of [example/index.ts]. *)
Definition example_script : M Console unit :=
  register [GreetExample; MakeController; MakeModel] ;;
  flag "env" (writes "NODE_ENV") string_option.

End MoreFixtures.

(** * Properties *)

(** ** Dictionaries *)

Section JsObjectFacts.
Context {V : Type}.
Implicit Type o : JsObject.t V.

Lemma obj_get_set_same o k v : JsObject.get (JsObject.set o k v) k = Some v.
Proof.
  induction o as [|[k' v'] o IH]; simpl.
  - now rewrite String.eqb_refl.
  - destruct (String.eqb k' k) eqn:E; simpl; now rewrite E.
Qed.

Lemma obj_get_set_other o k k' v :
  k <> k' -> JsObject.get (JsObject.set o k v) k' = JsObject.get o k'.
Proof.
  intros Hne. induction o as [|[k0 v0] o IH]; simpl.
  - destruct (String.eqb_spec k k'); [contradiction | reflexivity].
  - destruct (String.eqb_spec k0 k) as [->|]; simpl.
    + destruct (String.eqb_spec k k'); [contradiction | reflexivity].
    + now rewrite IH.
Qed.


Lemma obj_get_None_names o k :
  JsObject.get o k = None <-> ~ In k (JsObject.names o).
Proof.
  induction o as [|[k' v'] o IH]; simpl.
  - tauto.
  - destruct (String.eqb_spec k' k) as [->|Hne].
    + split; [discriminate | intros H; exfalso; apply H; now left].
    + rewrite IH. tauto.
Qed.

Lemma obj_get_Some_names o k v :
  JsObject.get o k = Some v -> In k (JsObject.names o).
Proof.
  intros H. destruct (in_dec string_dec k (JsObject.names o)) as [I|N];
    [exact I|].
  apply obj_get_None_names in N. congruence.
Qed.

Lemma obj_names_set_new o k v :
  ~ In k (JsObject.names o) ->
  JsObject.names (JsObject.set o k v) = JsObject.names o ++ [k].
Proof.
  induction o as [|[k' v'] o IH]; simpl; intros H; [reflexivity|].
  destruct (String.eqb_spec k' k) as [->|Hne]; [exfalso; apply H; now left|].
  simpl. f_equal. apply IH. tauto.
Qed.

Lemma obj_names_set_old o k v :
  In k (JsObject.names o) ->
  JsObject.names (JsObject.set o k v) = JsObject.names o.
Proof.
  induction o as [|[k' v'] o IH]; simpl; intros H; [contradiction|].
  destruct (String.eqb_spec k' k) as [->|Hne]; [reflexivity|].
  simpl. f_equal. apply IH. destruct H; [contradiction | assumption].
Qed.

(** The names after an assignment: a new name goes last. *)
Lemma obj_names_set o k v :
  JsObject.names (JsObject.set o k v) =
  if in_dec string_dec k (JsObject.names o) then JsObject.names o
  else JsObject.names o ++ [k].
Proof.
  destruct (in_dec string_dec k (JsObject.names o)).
  - now apply obj_names_set_old.
  - now apply obj_names_set_new.
Qed.

Lemma obj_get_In o k v : JsObject.get o k = Some v -> In (k, v) o.
Proof.
  induction o as [|[k' v'] o IH]; simpl; [discriminate|].
  destruct (String.eqb_spec k' k) as [->|Hne].
  - intros H. inversion H. now left.
  - intros H. right. now apply IH.
Qed.

Lemma get_set_keeps o k k' v :
  JsObject.get o k <> None -> JsObject.get (JsObject.set o k' v) k <> None.
Proof.
  intros H. destruct (String.eqb_spec k' k) as [->|Hne].
  - rewrite obj_get_set_same. discriminate.
  - now rewrite obj_get_set_other.
Qed.

End JsObjectFacts.

(** ** The order of [Object.keys] *)

Section KeyOrder.

Lemma array_index_proto : JsObject.array_index JsObject.proto = None.
Proof. reflexivity. Qed.

(** The array indices are the numerals of the integers below 2^32 - 1. *)
Lemma array_index_spec k n :
  JsObject.array_index k = Some n <->
  k = JsObject.numeral n /\ (n < 4294967295)%N.
Proof.
  unfold JsObject.array_index. split.
  - destruct (NilZero.uint_of_string k) as [d|]; [|discriminate].
    cbv zeta.
    destruct (String.eqb_spec (JsObject.numeral (N.of_uint d)) k) as [E|];
      [|discriminate].
    destruct (N.ltb_spec (N.of_uint d) 4294967295) as [Hlt|]; [|discriminate].
    simpl. intros Hn. inversion Hn; subst n. now split.
  - intros [-> Hlt]. unfold JsObject.numeral.
    rewrite NilZero.usu.
    + cbv zeta. rewrite DecimalN.Unsigned.of_to, String.eqb_refl.
      apply N.ltb_lt in Hlt. now rewrite Hlt.
    + destruct n as [|p]; [discriminate|].
      apply DecimalPos.Unsigned.to_uint_nonnil.
Qed.

Lemma plain_spec k :
  JsObject.plain k = true <->
  JsObject.array_index k = None /\ k <> JsObject.proto.
Proof.
  unfold JsObject.plain. destruct (JsObject.array_index k).
  - split; [discriminate | intros [H _]; discriminate].
  - rewrite negb_true_iff. split.
    + intros H. split; [reflexivity|]. now apply String.eqb_neq.
    + intros [_ H]. now apply String.eqb_neq.
Qed.

Lemma in_insert_index x y l :
  In y (JsObject.insert_index x l) <-> y = x \/ In y l.
Proof.
  induction l as [|z l IH]; simpl.
  - intuition.
  - destruct (fst x <=? fst z)%N; simpl; [intuition|].
    rewrite IH. intuition.
Qed.

Lemma in_sort_indices y l : In y (JsObject.sort_indices l) <-> In y l.
Proof.
  induction l as [|x l IH]; simpl; [tauto|].
  rewrite in_insert_index, IH. intuition.
Qed.

Lemma insert_index_sorted x l :
  StronglySorted JsObject.index_le l ->
  StronglySorted JsObject.index_le (JsObject.insert_index x l).
Proof.
  induction 1 as [|y l Hl IH Hy]; simpl.
  - repeat constructor.
  - destruct (fst x <=? fst y)%N eqn:E.
    + constructor; [now constructor|].
      apply N.leb_le in E. constructor; [exact E|].
      rewrite Forall_forall in *. intros z Hz. specialize (Hy z Hz).
      unfold JsObject.index_le in *. lia.
    + constructor; [exact IH|].
      apply N.leb_gt in E. rewrite Forall_forall in *.
      intros z Hz. apply in_insert_index in Hz as [->|Hz].
      * unfold JsObject.index_le. lia.
      * now apply Hy.
Qed.

Lemma sort_indices_sorted l :
  StronglySorted JsObject.index_le (JsObject.sort_indices l).
Proof.
  induction l as [|x l IH]; simpl; [constructor|].
  now apply insert_index_sorted.
Qed.

Lemma insert_index_perm x l : Permutation (JsObject.insert_index x l) (x :: l).
Proof.
  induction l as [|y l IH]; simpl; [reflexivity|].
  destruct (fst x <=? fst y)%N; [reflexivity|].
  rewrite IH. apply perm_swap.
Qed.

Lemma sort_indices_perm l : Permutation (JsObject.sort_indices l) l.
Proof.
  induction l as [|x l IH]; simpl; [reflexivity|].
  rewrite insert_index_perm. now constructor.
Qed.

Lemma in_indices_of n k l :
  In (n, k) (JsObject.indices_of l) <->
  In k l /\ JsObject.array_index k = Some n.
Proof.
  unfold JsObject.indices_of. rewrite in_flat_map. split.
  - intros (k' & Hin & H). destruct (JsObject.array_index k') eqn:E;
      [|contradiction].
    destruct H as [H|[]]. inversion H; subst. now split.
  - intros [Hin E]. exists k. split; [assumption|]. rewrite E. now left.
Qed.

Lemma indices_of_app l1 l2 :
  JsObject.indices_of (l1 ++ l2) =
  JsObject.indices_of l1 ++ JsObject.indices_of l2.
Proof. unfold JsObject.indices_of. apply flat_map_app. Qed.

Lemma snd_indices_of l :
  map snd (JsObject.indices_of l) =
  filter (fun k => match JsObject.array_index k with
                   | Some _ => true
                   | None => false
                   end) l.
Proof.
  induction l as [|k l IH]; simpl; [reflexivity|].
  destruct (JsObject.array_index k); simpl; now rewrite IH.
Qed.

Context {V : Type}.
Implicit Type o : JsObject.t V.

(** [Object.keys] lists the names of the object but [__proto__]. *)
Lemma obj_in_keys o k :
  In k (JsObject.keys o) <-> In k (JsObject.names o) /\ k <> JsObject.proto.
Proof.
  unfold JsObject.keys, JsObject.sorted_indices, JsObject.plain_names.
  rewrite in_app_iff, in_map_iff, filter_In, plain_spec. split.
  - intros [([n k'] & E & Hin)|(Hin & _ & Hne)]; [|now split].
    simpl in E. subst k'. apply in_sort_indices, in_indices_of in Hin
      as [Hin Hi].
    split; [assumption|]. intros ->. rewrite array_index_proto in Hi.
    discriminate.
  - intros [Hin Hne]. destruct (JsObject.array_index k) as [n|] eqn:E.
    + left. exists (n, k). split; [reflexivity|].
      apply in_sort_indices, in_indices_of. now split.
    + right. now repeat split.
Qed.

Lemma obj_keys_get o k :
  In k (JsObject.keys o) -> exists v, JsObject.get o k = Some v.
Proof.
  intros H. apply obj_in_keys in H as [H _].
  destruct (JsObject.get o k) as [v|] eqn:E; [now exists v|].
  apply obj_get_None_names in E. contradiction.
Qed.

Lemma obj_get_None_keys o k :
  JsObject.get o k = None -> ~ In k (JsObject.keys o).
Proof.
  intros H Hin. apply obj_keys_get in Hin as [v Hv]. congruence.
Qed.

Lemma obj_get_Some_keys o k v :
  JsObject.get o k = Some v -> k <> JsObject.proto -> In k (JsObject.keys o).
Proof.
  intros H Hne. apply obj_in_keys. split; [|assumption].
  now apply obj_get_Some_names in H.
Qed.

Lemma obj_keys_set_old o k v :
  In k (JsObject.names o) -> JsObject.keys (JsObject.set o k v) = JsObject.keys o.
Proof.
  intros H. unfold JsObject.keys, JsObject.sorted_indices,
    JsObject.plain_names. now rewrite obj_names_set_old.
Qed.


(** An assignment under [__proto__] changes nothing of what [Object.keys]
    lists. *)
Lemma obj_keys_set_proto o v :
  JsObject.keys (JsObject.set o JsObject.proto v) = JsObject.keys o.
Proof.
  destruct (in_dec string_dec JsObject.proto (JsObject.names o)) as [I|N].
  - now apply obj_keys_set_old.
  - unfold JsObject.keys, JsObject.sorted_indices, JsObject.plain_names.
    rewrite obj_names_set_new by assumption.
    rewrite indices_of_app, filter_app. simpl.
    now rewrite !app_nil_r.
Qed.

Lemma obj_in_entries o k v :
  In (k, v) (JsObject.entries o) <->
  In k (JsObject.keys o) /\ JsObject.get o k = Some v.
Proof.
  unfold JsObject.entries. rewrite in_flat_map. split.
  - intros (k' & Hin & H). destruct (JsObject.get o k') eqn:E;
      [|contradiction].
    destruct H as [H|[]]. inversion H; subst. now split.
  - intros [Hin E]. exists k. split; [assumption|]. rewrite E. now left.
Qed.

Lemma obj_entries_keys o : map fst (JsObject.entries o) = JsObject.keys o.
Proof.
  unfold JsObject.entries.
  assert (H : forall k, In k (JsObject.keys o) ->
                        exists v, JsObject.get o k = Some v)
    by apply obj_keys_get.
  induction (JsObject.keys o) as [|k l IH]; [reflexivity|].
  simpl. destruct (H k (or_introl eq_refl)) as [v ->]. simpl.
  f_equal. apply IH. intros k' Hk'. apply H. now right.
Qed.

(** What [Object.keys] lists: array indices by ascending index, then the
    plain names in the order of their first assignment. *)
Lemma obj_keys_order o :
  JsObject.keys o =
  map snd (JsObject.sorted_indices o) ++ filter JsObject.plain (JsObject.names o) /\
  StronglySorted JsObject.index_le (JsObject.sorted_indices o) /\
  (forall n k,
     In (n, k) (JsObject.sorted_indices o) <->
     In k (JsObject.names o) /\ JsObject.array_index k = Some n).
Proof.
  split; [reflexivity|]. split; [apply sort_indices_sorted|].
  intros n k. unfold JsObject.sorted_indices.
  now rewrite in_sort_indices, in_indices_of.
Qed.

Lemma NoDup_filter_map_snd (l : list string) :
  NoDup l -> NoDup (map snd (JsObject.indices_of l)).
Proof. intros H. rewrite snd_indices_of. now apply NoDup_filter. Qed.

Lemma obj_keys_NoDup o : NoDup (JsObject.names o) -> NoDup (JsObject.keys o).
Proof.
  intros ND. unfold JsObject.keys, JsObject.sorted_indices,
    JsObject.plain_names.
  apply NoDup_app.
  - apply (Permutation_NoDup (l := map snd (JsObject.indices_of (JsObject.names o)))).
    + apply Permutation_map. symmetry. apply sort_indices_perm.
    + now apply NoDup_filter_map_snd.
  - now apply NoDup_filter.
  - intros k Hi Hp. apply in_map_iff in Hi as ([n k'] & E & Hi).
    simpl in E. subst k'. apply in_sort_indices, in_indices_of in Hi
      as [_ Hi].
    apply filter_In in Hp as [_ Hp]. apply plain_spec in Hp as [Hp _].
    congruence.
Qed.

End KeyOrder.

(** ** Validation *)

Section ValidationFacts.
Context {W : Type}.









Lemma _validateCommand_named (command : Command.t W) :
  _validateCommand command = inr tt ->
  no_name (Command.commandName command) = false.
Proof.
  unfold _validateCommand.
  destruct (no_name (Command.commandName command)); [discriminate | reflexivity].
Qed.

End ValidationFacts.

(** ** Registration *)

Section RegistrationFacts.
Context {W : Type}.
Implicit Type s : State W.
Implicit Type command : Command.t W.


Lemma forEach_app {A : Type} (f : A -> M W unit) xs ys s :
  forEach (xs ++ ys) f s =
  match forEach xs f s with
  | (inl e, s') => (inl e, s')
  | (inr _, s') => forEach ys f s'
  end.
Proof.
  revert s. induction xs as [|x xs IH]; intros s; simpl; [reflexivity|].
  unfold bind. destruct (f x s) as [[e|[]] s']; [reflexivity | apply IH].
Qed.

Lemma register_nil s : register [] s = (inr tt, s).
Proof. reflexivity. Qed.

Lemma register_cons command rest s :
  register (command :: rest) s =
  match _validateCommand command with
  | inl e => (inl e, s)
  | inr _ =>
      register rest
        (with_commands
           (JsObject.set (commands (this s)) (fst (stored command)) command) s)
  end.
Proof.
  unfold register. simpl. unfold bind, lift.
  destruct (_validateCommand command) as [e|[]]; reflexivity.
Qed.

Lemma register_app pre post s :
  register (pre ++ post) s =
  match register pre s with
  | (inl e, s') => (inl e, s')
  | (inr _, s') => register post s'
  end.
Proof. apply forEach_app. Qed.





Lemma Forall_set {V : Type} (P : string * V -> Prop) (o : JsObject.t V) k v :
  Forall P o -> P (k, v) -> Forall P (JsObject.set o k v).
Proof.
  intros Ho Hkv. induction o as [|[k' v'] o IH]; simpl.
  - now constructor.
  - inversion Ho; subst.
    destruct (String.eqb_spec k' k) as [->|]; constructor; auto.
Qed.


End RegistrationFacts.

(** ** The monad *)

Section MonadFacts.
Context {W : Type} {collaborators : Collaborators W}.
Implicit Type s : State W.
Implicit Type P : Event W -> bool.

Lemma calls_ret {A} P (a : A) : calls P (ret a).
Proof.
  intros s. simpl. split; [reflexivity|]. split; [reflexivity|]. split.
  - exists []. now rewrite app_nil_r.
  - discriminate.
Qed.

Lemma calls_throw {A} P e : is_foreign e = true -> calls P (@throw W A e).
Proof.
  intros He s. simpl. split; [reflexivity|]. split; [reflexivity|]. split.
  - exists []. now rewrite app_nil_r.
  - intros e' H. now inversion H; subst.
Qed.

Lemma calls_get_this P : calls P (@get_this W).
Proof.
  intros s. simpl. split; [reflexivity|]. split; [reflexivity|]. split.
  - exists []. now rewrite app_nil_r.
  - discriminate.
Qed.

Lemma calls_log P e : P e = true -> calls P (log e).
Proof.
  intros He s. simpl. split; [reflexivity|]. split; [reflexivity|]. split.
  - exists [e]. simpl. now rewrite He.
  - discriminate.
Qed.

Lemma calls_user {A} P (u : User W A) : calls P (user u).
Proof.
  intros s. unfold user. destruct (u (world s)) as [[payload|a] w]; simpl;
    (split; [reflexivity|]; split; [reflexivity|]; split;
     [exists []; now rewrite app_nil_r|]).
  - intros e H. now inversion H.
  - discriminate.
Qed.

Lemma calls_bind {A B} P (m : M W A) (f : A -> M W B) :
  calls P m -> (forall a, calls P (f a)) -> calls P (bind m f).
Proof.
  intros Hm Hf s. unfold bind.
  destruct (Hm s) as (Ht & Hh & (d & Hd & HP) & He).
  destruct (m s) as [[e|a] s1]; simpl in *.
  - split; [assumption|]. split; [assumption|]. split; [now exists d|].
    intros e0 H. inversion H; subst. now apply He.
  - destruct (Hf a s1) as (Ht' & Hh' & (d' & Hd' & HP') & He').
    split; [congruence|]. split; [congruence|]. split; [|exact He'].
    exists (d ++ d'). rewrite Hd', Hd, app_assoc. split; [reflexivity|].
    rewrite forallb_app. now rewrite HP, HP'.
Qed.

Lemma calls_forEach {A} P (f : A -> M W unit) items :
  (forall item, calls P (f item)) -> calls P (forEach items f).
Proof.
  intros Hf. induction items as [|item rest IH]; simpl.
  - apply calls_ret.
  - apply calls_bind; auto.
Qed.

Lemma calls_weaken {A} P Q (m : M W A) :
  (forall e, P e = true -> Q e = true) -> calls P m -> calls Q m.
Proof.
  intros HPQ Hm s. destruct (Hm s) as (Ht & Hh & (d & Hd & HP) & He).
  split; [assumption|]. split; [assumption|]. split; [|assumption].
  exists d. split; [assumption|].
  rewrite forallb_forall in *. auto.
Qed.







End MonadFacts.

(** ** Global flags *)

Section GlobalFlagFacts.
Context {W : Type} {collaborators : Collaborators W}.
Implicit Type s : State W.
Implicit Type command : option (Command.t W).
Implicit Type P : Event W -> bool.

Lemma bind_get_this {A} (f : Kernel W -> M W A) s :
  bind get_this f s = f (this s) s.
Proof. reflexivity. Qed.

Lemma fires_spec value : fires value = true <-> spec_fires value.
Proof.
  unfold fires, spec_fires. split.
  - intros H. apply andb_true_iff in H as [Hu Hl].
    split; [intros ->; discriminate|]. split.
    + intros str ->. simpl in Hl. intros ->. discriminate.
    + intros items ->. simpl in Hl. intros ->. discriminate.
  - intros (Hu & Hs & Ha). destruct value; try reflexivity.
    + contradiction.
    + simpl. destruct s; [now specialize (Hs "" eq_refl) | reflexivity].
    + simpl. destruct items; [now specialize (Ha [] eq_refl) | reflexivity].
Qed.

Lemma call_handler_calls options command entry :
  calls any_event (call_handler options command entry).
Proof.
  apply calls_bind; [now apply calls_log | intros _; apply calls_user].
Qed.

Lemma call_handler_trace options command entry s :
  trace (snd (call_handler options command entry s)) =
  trace s ++ [flag_event options command (fst entry)].
Proof.
  unfold call_handler, bind, log, user. simpl.
  destruct (GlobalFlag.handler _ _ _ _ _) as [r w]. reflexivity.
Qed.

(** The guards of [execute_handler] let through the values that fire. *)
Lemma execute_handler_registered options command name f s :
  JsObject.get (flags (this s)) name = Some f ->
  execute_handler options command name s =
  if fires (options_get options name)
  then call_handler options command (name, f) s
  else (inr tt, s).
Proof.
  intros Hf. unfold execute_handler, fires.
  destruct (is_undefined (options_get options name)); [reflexivity|].
  destruct (is_string_or_array (options_get options name)
            && (js_length (options_get options name) =? 0)); [reflexivity|].
  simpl. rewrite bind_get_this. now rewrite Hf.
Qed.

Lemma forEach_firing options command
  (entries : list (string * GlobalFlag.t W)) : forall s,
  (forall entry, In entry entries ->
     JsObject.get (flags (this s)) (fst entry) = Some (snd entry)) ->
  forEach (map fst entries) (execute_handler options command) s =
  forEach (filter (fun '(name, _) => fires (options_get options name)) entries)
    (call_handler options command) s.
Proof.
  induction entries as [|[name f] rest IH]; intros s Hget; [reflexivity|].
  simpl. unfold bind at 1.
  rewrite (execute_handler_registered options command name f)
    by (apply (Hget (name, f)); now left).
  destruct (fires (options_get options name)).
  - simpl. unfold bind at 1.
    pose proof (call_handler_calls options command (name, f) s) as (Ht & _).
    destruct (call_handler options command (name, f) s) as [[e|[]] s'];
      [reflexivity|].
    apply IH. intros entry Hin. simpl in Ht. rewrite Ht. apply Hget. now right.
  - apply IH. intros entry Hin. apply Hget. now right.
Qed.

(** The handlers called are those of the registered flags that fire, in
    the order of [Object.keys]. *)
Lemma _executeGlobalFlagsHandlers_firing options command s :
  _executeGlobalFlagsHandlers options command s =
  forEach (firing options (flags (this s))) (call_handler options command) s.
Proof.
  unfold _executeGlobalFlagsHandlers. rewrite bind_get_this. cbv zeta.
  rewrite <- obj_entries_keys. unfold firing.
  apply forEach_firing. intros [name f] Hin.
  now apply obj_in_entries in Hin as [_ Hin].
Qed.

(** A flag handler is the only thing that raises while the handlers are
    called. *)
Lemma forEach_call_handler_raises options command
  (entries : list (string * GlobalFlag.t W)) : forall s e,
  fst (forEach entries (call_handler options command) s) = inl e ->
  exists payload, e = Foreign payload.
Proof.
  induction entries as [|entry rest IH]; intros s e; [discriminate|].
  simpl. unfold bind at 1.
  destruct (call_handler options command entry s) as [[e'|[]] s'] eqn:E.
  - simpl. intros H. inversion H; subst e'. clear H.
    unfold call_handler, bind, log, user in E. simpl in E.
    destruct (GlobalFlag.handler _ _ _ _ _) as [[payload|[]] w];
      inversion E. now exists payload.
  - apply IH.
Qed.

Lemma _executeGlobalFlagsHandlers_raises options command s e :
  fst (_executeGlobalFlagsHandlers options command s) = inl e ->
  exists payload, e = Foreign payload.
Proof.
  rewrite _executeGlobalFlagsHandlers_firing.
  apply forEach_call_handler_raises.
Qed.

Lemma forEach_call_handler_trace options command
  entries : forall s,
  exists n,
    trace (snd (forEach entries (call_handler options command) s)) =
    trace s ++ map (fun entry => flag_event options command (fst entry))
                 (firstn n entries) /\
    (fst (forEach entries (call_handler options command) s) = inr tt ->
     firstn n entries = entries).
Proof.
  induction entries as [|entry rest IH]; intros s.
  - exists 0. simpl. now rewrite app_nil_r.
  - simpl. unfold bind.
    pose proof (call_handler_trace options command entry s) as Ht.
    destruct (call_handler options command entry s) as [[e|[]] s'].
    + exists 1. simpl in *. split; [exact Ht | discriminate].
    + destruct (IH s') as (n & Hn & Hall). exists (S n). simpl in *.
      rewrite Hn, Ht, <- app_assoc. split; [reflexivity|].
      intros H. now rewrite Hall.
Qed.

Lemma execute_handler_calls options command name P :
  P (flag_event options command name) = true ->
  calls P (execute_handler options command name).
Proof.
  intros HP. unfold execute_handler.
  destruct (is_undefined (options_get options name)); [apply calls_ret|].
  destruct (is_string_or_array (options_get options name)
            && (js_length (options_get options name) =? 0)); [apply calls_ret|].
  simpl. apply calls_bind; [apply calls_get_this|]. intros k.
  destruct (JsObject.get (flags k) name).
  - apply calls_bind; [now apply calls_log | intros _; apply calls_user].
  - now apply calls_throw.
Qed.

Lemma _executeGlobalFlagsHandlers_calls options command P :
  (forall name, P (flag_event options command name) = true) ->
  calls P (_executeGlobalFlagsHandlers options command).
Proof.
  intros HP. unfold _executeGlobalFlagsHandlers.
  apply calls_bind; [apply calls_get_this|]. intros k.
  apply calls_forEach. intros name. now apply execute_handler_calls.
Qed.



Lemma call_parse_calls parser argv command P :
  P (EvParse argv command) = true -> calls P (call_parse parser argv command).
Proof.
  intros HP. unfold call_parse.
  apply calls_bind; [now apply calls_log|]. intros _.
  destruct (parse parser argv command); [now apply calls_throw | apply calls_ret].
Qed.


End GlobalFlagFacts.

(** ** The heap *)

Section HeapFacts.

Lemma nth_allocated (h : list (list string)) l a0 rest :
  nth l h [] = a0 :: rest -> l < List.length h.
Proof.
  intros H. destruct (Nat.lt_ge_cases l (List.length h)) as [|Hge]; [assumption|].
  rewrite nth_overflow in H by assumption. discriminate.
Qed.

Lemma nth_update_same (h : list (list string)) : forall l a,
  l < List.length h -> nth l (update h l a) [] = a.
Proof.
  induction h as [|a' h IH]; intros l a Hl; simpl in *; [lia|].
  destruct l as [|l]; [reflexivity|]. simpl. apply IH. lia.
Qed.

Lemma nth_update_other (h : list (list string)) : forall l l' a,
  l <> l' -> nth l' (update h l a) [] = nth l' h [].
Proof.
  induction h as [|a' h IH]; intros l l' a Hne; simpl; [reflexivity|].
  destruct l as [|l], l' as [|l']; simpl; try reflexivity; try congruence.
  apply IH. congruence.
Qed.

End HeapFacts.

(** ** Dispatch *)

Section HandleFacts.
Context {W : Type} {collaborators : Collaborators W}.
Implicit Type s : State W.
Implicit Type P : Event W -> bool.

Lemma handle_no_argv argv s :
  nth argv (heap s) [] = [] -> handle argv s = (inr VUndefined, s).
Proof.
  intros H. unfold handle, bind, read. now rewrite H.
Qed.

Lemma handle_without_command argv a0 rest s :
  nth argv (heap s) [] = a0 :: rest ->
  String.prefix "-" a0 = true ->
  handle argv s =
  (parsedOptions <- call_parse (flags (this s)) (a0 :: rest) None ;;
   _executeGlobalFlagsHandlers parsedOptions None ;;
   ret VUndefined) s.
Proof.
  intros Ha Hp. unfold handle. unfold bind at 1. unfold read. rewrite Ha.
  rewrite bind_get_this. now rewrite Hp.
Qed.

Lemma handle_not_found argv a0 rest s :
  nth argv (heap s) [] = a0 :: rest ->
  String.prefix "-" a0 = false ->
  JsObject.get (commands (this s)) a0 = None ->
  handle argv s = (inl (NotRegistered a0), s).
Proof.
  intros Ha Hp Hc. unfold handle. unfold bind at 1. unfold read. rewrite Ha.
  rewrite bind_get_this, Hp. simpl. unfold bind at 1. unfold find.
  rewrite bind_get_this. simpl. unfold argv0_key. simpl. now rewrite Hc.
Qed.

Lemma handle_found argv a0 rest command s :
  nth argv (heap s) [] = a0 :: rest ->
  String.prefix "-" a0 = false ->
  JsObject.get (commands (this s)) a0 = Some command ->
  handle argv s = dispatch (flags (this s)) command rest (spliced argv s).
Proof.
  intros Ha Hp Hc. unfold handle. unfold bind at 1. unfold read. rewrite Ha.
  rewrite bind_get_this, Hp. simpl. unfold bind at 1. unfold find.
  rewrite bind_get_this. simpl. unfold argv0_key. simpl. rewrite Hc.
  unfold bind at 1. unfold splice, spliced. rewrite Ha. reflexivity.
Qed.

Lemma new_calls (command : Command.t W) P :
  P (EvNew command) = true -> calls P (new command).
Proof.
  intros HP. apply calls_bind; [now apply calls_log | intros _; apply calls_ret].
Qed.

Lemma call_handle_calls (command : Command.t W) commandInstance P :
  P (EvHandle command commandInstance) = true ->
  calls P (call_handle command commandInstance).
Proof.
  intros HP. unfold call_handle.
  destruct (JsObject.get commandInstance "handle");
    [now apply calls_throw|].
  destruct (JsObject.get commandInstance JsObject.proto);
    [now apply calls_throw|].
  apply calls_bind; [now apply calls_log | intros _; apply calls_user].
Qed.

Lemma dispatch_calls parser (command : Command.t W) tail :
  calls any_event (dispatch parser command tail).
Proof.
  unfold dispatch.
  apply calls_bind; [now apply call_parse_calls|]. intros parsedOptions.
  apply calls_bind; [now apply _executeGlobalFlagsHandlers_calls|]. intros _.
  apply calls_bind; [now apply new_calls|]. intros commandInstance.
  now apply call_handle_calls.
Qed.

Lemma flag_only_calls parser argv :
  calls flag_only_event
    (parsedOptions <- call_parse parser argv None ;;
     _executeGlobalFlagsHandlers parsedOptions None ;;
     @ret W _ VUndefined).
Proof.
  apply calls_bind; [now apply call_parse_calls|]. intros parsedOptions.
  apply calls_bind; [now apply _executeGlobalFlagsHandlers_calls|]. intros _.
  apply calls_ret.
Qed.




(** [handle] leaves both registries as they are. *)
Lemma handle_keeps_kernel argv s : this (snd (handle argv s)) = this s.
Proof.
  destruct (nth argv (heap s) []) as [|a0 rest] eqn:Ha.
  - now rewrite handle_no_argv.
  - destruct (String.prefix "-" a0) eqn:Hp.
    + rewrite (handle_without_command argv a0 rest) by assumption.
      apply (flag_only_calls (flags (this s)) (a0 :: rest) s).
    + destruct (JsObject.get (commands (this s)) a0) as [command|] eqn:Hc.
      * rewrite (handle_found argv a0 rest command) by assumption.
        apply (dispatch_calls (flags (this s)) command rest (spliced argv s)).
      * now rewrite (handle_not_found argv a0 rest).
Qed.

End HandleFacts.

(** ** Population of the command instance *)

Section PopulationFacts.
Implicit Type instance : CommandInstance.

Lemma assign_all_app l1 l2 instance :
  assign_all (l1 ++ l2) instance = assign_all l2 (assign_all l1 instance).
Proof. apply fold_left_app. Qed.

(** Under a name other than [__proto__] an assignment makes a field. *)
Lemma assign_plain instance name value :
  name <> JsObject.proto ->
  assign instance name value = JsObject.set instance name (FValue value).
Proof.
  intros Hne. unfold assign. apply String.eqb_neq in Hne. now rewrite Hne.
Qed.

(** An assignment removes no field. *)
Lemma assign_keeps instance name value k :
  JsObject.get instance k <> None ->
  JsObject.get (assign instance name value) k <> None.
Proof.
  intros H. unfold assign.
  destruct (String.eqb name JsObject.proto); [|now apply get_set_keeps].
  destruct (JsObject.get instance JsObject.proto) as [[?|?|[]]|];
    try (now apply get_set_keeps);
    (destruct (is_object_or_null value);
     [now apply get_set_keeps | assumption]).
Qed.

(** An assignment changes no other field. *)
Lemma assign_other instance name value k :
  k <> name ->
  JsObject.get (assign instance name value) k = JsObject.get instance k.
Proof.
  intros Hne. unfold assign.
  assert (Hset : forall field,
            JsObject.get (JsObject.set instance name field) k =
            JsObject.get instance k)
    by (intros field; apply obj_get_set_other; congruence).
  destruct (String.eqb name JsObject.proto); [|apply Hset].
  destruct (JsObject.get instance JsObject.proto) as [[?|?|[]]|];
    try apply Hset;
    (destruct (is_object_or_null value); [apply Hset | reflexivity]).
Qed.

Lemma assign_has instance name value :
  name <> JsObject.proto ->
  JsObject.get (assign instance name value) name <> None.
Proof.
  intros Hne. rewrite assign_plain by assumption.
  rewrite obj_get_set_same. discriminate.
Qed.

Lemma set_flags_spec options flags : forall instance,
  Forall (fun f => CommandFlag.name f <> JsObject.proto) flags ->
  set_flags options flags instance =
  assign_all (spec_flag_assignments options flags) instance.
Proof.
  induction flags as [|f flags IH]; intros instance Hne; [reflexivity|].
  inversion Hne; subst. simpl. rewrite assign_plain by assumption.
  now apply IH.
Qed.

Lemma spec_arg_assignments_from options args :
  spec_arg_assignments options args =
  map (arg_assignment options) (populated_from [] args 0).
Proof.
  unfold spec_arg_assignments, populated_from. simpl.
  apply map_ext. now intros [i arg].
Qed.

Lemma spec_populated_prefix pre rest :
  spec_populated (pre ++ rest) (List.length pre) =
  forallb (fun arg => negb (is_spread arg)) pre.
Proof.
  unfold spec_populated. now rewrite firstn_app, Nat.sub_diag, firstn_all, app_nil_r.
Qed.

(** Nothing after a spread is populated. *)
Lemma populated_after_spread pre arg rest start :
  is_spread arg = true -> List.length pre < start ->
  filter (fun '(i, _) => spec_populated (pre ++ arg :: rest) i)
    (combine (seq start (List.length rest)) rest) = [].
Proof.
  intros Hs Hlt.
  assert (Hall : forall numbered,
             In numbered (combine (seq start (List.length rest)) rest) ->
             (fun '(i, _) => spec_populated (pre ++ arg :: rest) i)
               numbered = false).
  { intros [i a] Hin. apply in_combine_l in Hin. apply in_seq in Hin.
    unfold spec_populated.
    apply not_true_is_false. intros Hf. rewrite forallb_forall in Hf.
    assert (Hin' : In arg (firstn i (pre ++ arg :: rest))).
    { rewrite firstn_app. apply in_or_app. right.
      replace (i - List.length pre) with (S (i - List.length pre - 1)) by lia.
      now left. }
    specialize (Hf arg Hin'). now rewrite Hs in Hf. }
  revert Hall.
  generalize (combine (seq start (List.length rest)) rest).
  intros l Hall. induction l as [|x l IHl]; [reflexivity|].
  simpl. rewrite (Hall x) by now left. apply IHl. intros y Hy. apply Hall. now right.
Qed.

(** The loop of [handle] makes the assignments of the specification. *)
Lemma set_args_from options rest : forall pre instance,
  Forall (fun arg => CommandArg.name arg <> JsObject.proto) rest ->
  forallb (fun arg => negb (is_spread arg)) pre = true ->
  set_args options (List.length pre) rest instance =
  assign_all
    (map (arg_assignment options) (populated_from pre rest (List.length pre)))
    instance.
Proof.
  induction rest as [|arg rest IH]; intros pre instance Hne Hpre;
    [reflexivity|].
  inversion Hne as [|? ? Hname Hrest]; subst.
  unfold populated_from. simpl.
  rewrite spec_populated_prefix, Hpre.
  rewrite !assign_plain by assumption.
  destruct (is_spread arg) eqn:Hs.
  - rewrite populated_after_spread by (assumption || lia).
    unfold arg_assignment, spec_arg_value, positionals_from. simpl.
    now rewrite Hs.
  - simpl.
    replace (JsObject.set instance (CommandArg.name arg)
               (FValue (spec_arg_value options arg (List.length pre))))
      with (JsObject.set instance (CommandArg.name arg)
              (FValue (positional_at options (List.length pre)))).
    2:{ unfold spec_arg_value, positional_at. now rewrite Hs. }
    specialize (IH (pre ++ [arg])
                  (JsObject.set instance (CommandArg.name arg)
                     (FValue (positional_at options (List.length pre))))).
    rewrite length_app in IH. simpl in IH.
    rewrite IH by (assumption || rewrite forallb_app; simpl; now rewrite Hpre, Hs).
    unfold populated_from. rewrite <- app_assoc. simpl.
    now rewrite Nat.add_1_r.
Qed.

Lemma set_args_spec options args instance :
  Forall (fun arg => CommandArg.name arg <> JsObject.proto) args ->
  set_args options 0 args instance =
  assign_all (spec_arg_assignments options args) instance.
Proof.
  intros Hne. rewrite spec_arg_assignments_from.
  now apply (set_args_from options args []).
Qed.

Lemma in_numbered {A} (items : list A) : forall start i item,
  nth_error items i = Some item ->
  In (start + i, item) (combine (seq start (List.length items)) items).
Proof.
  induction items as [|x items IH]; intros start i item H.
  - destruct i; discriminate.
  - destruct i as [|i]; simpl in *.
    + inversion H; subst. left. now rewrite Nat.add_0_r.
    + right. replace (start + S i) with (S start + i) by lia. now apply IH.
Qed.

(** A populated argument is among the assignments. *)
Lemma in_spec_arg_assignments options args i arg :
  nth_error args i = Some arg ->
  spec_populated args i = true ->
  In (CommandArg.name arg, FValue (spec_arg_value options arg i))
    (spec_arg_assignments options args).
Proof.
  intros Hnth Hpop. unfold spec_arg_assignments.
  apply in_map_iff. exists (i, arg). split; [reflexivity|].
  apply filter_In. split; [|assumption].
  now apply (in_numbered args 0 i arg).
Qed.

Lemma in_spec_flag_assignments options flags f :
  In f flags ->
  In (CommandFlag.name f, FValue (options_get options (CommandFlag.name f)))
    (spec_flag_assignments options flags).
Proof.
  intros H. unfold spec_flag_assignments. apply in_map_iff. now exists f.
Qed.

Lemma assign_all_snoc l k v instance :
  assign_all (l ++ [(k, v)]) instance =
  JsObject.set (assign_all l instance) k v.
Proof. now rewrite assign_all_app. Qed.

(** When the last assignments to [k] all give [v], [k] holds [v]. *)
Lemma get_assign_all_determined l : forall instance k v,
  (exists v', In (k, v') l) ->
  (forall v', In (k, v') l -> v' = v) ->
  JsObject.get (assign_all l instance) k = Some v.
Proof.
  induction l as [|[k' v'] l IH] using rev_ind; intros instance k v [v0 Hin] Hall.
  - contradiction.
  - rewrite assign_all_snoc.
    destruct (String.eqb_spec k' k) as [->|Hne].
    + rewrite obj_get_set_same. f_equal. apply Hall.
      apply in_or_app. right. now left.
    + rewrite obj_get_set_other by assumption.
      apply IH.
      * apply in_app_or in Hin as [Hin|[E|[]]]; [now exists v0|].
        inversion E; subst. contradiction.
      * intros v1 H1. apply Hall. apply in_or_app. now left.
Qed.

(** A name that is not assigned stays without a field. *)
Lemma get_assign_all_None l : forall instance k,
  JsObject.get instance k = None -> ~ In k (map fst l) ->
  JsObject.get (assign_all l instance) k = None.
Proof.
  induction l as [|[k' v'] l IH]; intros instance k Hnone Hnin; [exact Hnone|].
  simpl. apply IH.
  - rewrite obj_get_set_other; [assumption|].
    intros ->. apply Hnin. now left.
  - intros H. apply Hnin. now right.
Qed.

(** When no name is assigned twice, every name holds what it was
    assigned. *)
Lemma get_assign_all_NoDup l instance k v :
  NoDup (map fst l) -> In (k, v) l ->
  JsObject.get (assign_all l instance) k = Some v.
Proof.
  intros ND Hin. apply get_assign_all_determined; [now exists v|].
  intros v' Hin'.
  clear instance. induction l as [|[k0 v0] l IH]; [contradiction|].
  simpl in ND. inversion ND as [|? ? Hnin ND']; subst.
  destruct Hin as [E|Hin], Hin' as [E'|Hin'].
  - congruence.
  - inversion E; subst. exfalso. apply Hnin.
    change k with (fst (k, v')). now apply in_map.
  - inversion E'; subst. exfalso. apply Hnin.
    change k with (fst (k, v)). now apply in_map.
  - now apply IH.
Qed.

End PopulationFacts.

Section MoreHandleFacts.
Context {W : Type} {collaborators : Collaborators W}.
Implicit Type s : State W.

Lemma bind_assoc {A B C} (m : M W A) (f : A -> M W B) (g : B -> M W C) s :
  bind (bind m f) g s = bind m (fun a => bind (f a) g) s.
Proof.
  unfold bind. destruct (m s) as [[e|a] s1]; reflexivity.
Qed.

(** The first thing [dispatch] does is to hand [tail] to the parser. *)
Lemma dispatch_parses_tail parser (command : Command.t W) tail s :
  exists later,
    trace (snd (dispatch parser command tail s)) =
    trace s ++ EvParse tail (Some command) :: later.
Proof.
  unfold dispatch, call_parse. rewrite bind_assoc.
  set (k := fun _ : unit => _).
  assert (Hk : calls any_event (k tt)).
  { unfold k.
    apply calls_bind.
    - destruct (parse parser tail (Some command));
        [now apply calls_throw | apply calls_ret].
    - intros parsedOptions.
      apply calls_bind; [now apply _executeGlobalFlagsHandlers_calls|]. intros _.
      apply calls_bind; [now apply new_calls|]. intros commandInstance.
      now apply call_handle_calls. }
  unfold bind at 1. simpl.
  destruct (Hk (snd (log (EvParse tail (Some command)) s)))
    as (_ & _ & (delta & Hd & _) & _).
  exists delta. simpl in Hd. rewrite Hd. now rewrite <- app_assoc.
Qed.

(** [dispatch] when the parser and the flag handlers return. *)
Lemma dispatch_returns parser (command : Command.t W) tail options s s2 :
  parse parser tail (Some command) = inr options ->
  _executeGlobalFlagsHandlers options (Some command)
    (snd (log (EvParse tail (Some command)) s)) = (inr tt, s2) ->
  dispatch parser command tail s =
  call_handle command
    (set_flags options (Command.flags command)
       (set_args options 0 (Command.args command)
          (JsObject.set JsObject.empty "parsed" (FParsed options))))
    (snd (new command s2)).
Proof.
  intros Hparse Hflags. unfold dispatch, call_parse. rewrite bind_assoc.
  unfold bind at 1. simpl. rewrite Hparse.
  unfold bind at 1. simpl. unfold bind at 1.
  simpl in Hflags. rewrite Hflags. reflexivity.
Qed.


End MoreHandleFacts.

(** * The claims *)

Section Claims.
Context {W : Type} {collaborators : Collaborators W}.
Implicit Type s : State W.


(** X21: for a command whose arguments and flags are named otherwise
    than [__proto__], once the command is found, the parser has
    returned and the flag handlers have run, [handle] calls the
    [handle()] method on a fresh instance that has received, in this
    order, the parse result, for each argument up to the first spread the
    positional at its index ([undefined] when there is none) or, for the
    spread, the positionals from its index on, and for each flag its
    parsed value, [undefined] when the parse result holds none. *)
Theorem handle_populates_instance argv a0 rest (command : Command.t W)
  options s s2 :
  nth argv (heap s) [] = a0 :: rest ->
  String.prefix "-" a0 = false ->
  JsObject.get (commands (this s)) a0 = Some command ->
  parse (flags (this s)) rest (Some command) = inr options ->
  _executeGlobalFlagsHandlers options (Some command)
    (snd (log (EvParse rest (Some command)) (spliced argv s))) = (inr tt, s2) ->
  Forall (fun arg => CommandArg.name arg <> JsObject.proto)
    (Command.args command) ->
  Forall (fun f => CommandFlag.name f <> JsObject.proto)
    (Command.flags command) ->
  let assignments :=
    ("parsed", FParsed options)
      :: spec_arg_assignments options (Command.args command)
      ++ spec_flag_assignments options (Command.flags command) in
  let instance := assign_all assignments JsObject.empty in
  handle argv s = call_handle command instance (snd (new command s2)) /\
  (JsObject.get instance "handle" = None ->
   handle argv s =
   user (Command.handle command instance)
     (snd (log (EvHandle command instance) (snd (new command s2))))) /\
  (forall f, In f (Command.flags command) ->
     JsObject.get instance (CommandFlag.name f) =
     Some (FValue (options_get options (CommandFlag.name f)))) /\
  (forall f, In f (Command.flags command) ->
     CommandFlag.name f <> "_" ->
     JsObject.get instance (CommandFlag.name f) =
     Some (FValue
             match JsObject.get (named options) (CommandFlag.name f) with
             | Some value => value
             | None => VUndefined
             end)) /\
  (NoDup (map fst assignments) ->
   forall i arg,
     nth_error (Command.args command) i = Some arg ->
     spec_populated (Command.args command) i = true ->
     JsObject.get instance (CommandArg.name arg) =
     Some (FValue (spec_arg_value options arg i))) /\
  (forall i arg,
     is_spread arg = false -> List.length (positionals options) <= i ->
     spec_arg_value options arg i = VUndefined).
Proof.
  intros Ha Hp Hc Hparse Hflags Hargs Hfl assignments instance.
  assert (Hhandle :
            handle argv s = call_handle command instance (snd (new command s2))).
  { rewrite (handle_found argv a0 rest command) by assumption.
    rewrite (dispatch_returns _ _ _ options _ s2) by assumption.
    rewrite set_flags_spec, set_args_spec by assumption.
    unfold instance, assignments. simpl.
    now rewrite assign_all_app. }
  assert (Hflag : forall f, In f (Command.flags command) ->
            JsObject.get instance (CommandFlag.name f) =
            Some (FValue (options_get options (CommandFlag.name f)))).
  { intros f Hf. unfold instance, assignments.
    change (("parsed", FParsed options)
              :: spec_arg_assignments options (Command.args command)
              ++ spec_flag_assignments options (Command.flags command))
      with ((("parsed", FParsed options)
               :: spec_arg_assignments options (Command.args command))
              ++ spec_flag_assignments options (Command.flags command)).
    rewrite assign_all_app. apply get_assign_all_determined.
    + eexists. now apply in_spec_flag_assignments.
    + intros v' Hin. unfold spec_flag_assignments in Hin.
      apply in_map_iff in Hin as (f' & E & _). inversion E. reflexivity. }
  split; [exact Hhandle|]. split; [|split; [|split; [|split]]].
  - intros Hnone. rewrite Hhandle. unfold call_handle. rewrite Hnone.
    replace (JsObject.get instance JsObject.proto) with (@None Field);
      [reflexivity|].
    symmetry. apply get_assign_all_None; [reflexivity|].
    unfold assignments. simpl. intros [H|H]; [discriminate|].
    rewrite map_app in H. apply in_app_or in H as [H|H].
    + unfold spec_arg_assignments in H. rewrite map_map in H.
      apply in_map_iff in H as ([i arg] & E & Hin). simpl in E.
      apply filter_In in Hin as [Hin _]. apply in_combine_r in Hin.
      rewrite Forall_forall in Hargs. now apply (Hargs arg).
    + unfold spec_flag_assignments in H. rewrite map_map in H.
      apply in_map_iff in H as (f & E & Hin). simpl in E.
      rewrite Forall_forall in Hfl. now apply (Hfl f).
  - exact Hflag.
  - intros f Hf Hne. rewrite (Hflag f Hf). unfold options_get.
    apply String.eqb_neq in Hne. now rewrite Hne.
  - intros ND i arg Hnth Hpop. apply get_assign_all_NoDup; [assumption|].
    right. apply in_or_app. left. now apply in_spec_arg_assignments.
  - intros i arg Hs Hlen. unfold spec_arg_value. rewrite Hs.
    apply nth_error_None in Hlen. now rewrite Hlen.
Qed.

(** C3, as amended: the handlers [_executeGlobalFlagsHandlers] calls are
    those of the flags registered under a name other than [__proto__]
    whose parsed value is not [undefined] and, when a string or an array,
    not empty; they are called one after the other in the order of
    [Object.keys]: first the names that are array indices, by ascending
    index, then the other names in the order in which they were first
    registered; each is called with the value, the parse result and the
    command, which is absent on the path without a command name and the
    command found on the other. *)
Theorem global_flag_handlers_fire options (command : option (Command.t W)) s :
  let registry := flags (this s) in
  let fired := firing options registry in
  let r := _executeGlobalFlagsHandlers options command s in
  r = forEach fired (call_handler options command) s /\
  (forall name f,
     In (name, f) fired <->
     In name (JsObject.names registry) /\ name <> JsObject.proto /\
     JsObject.get registry name = Some f /\
     spec_fires (options_get options name)) /\
  map fst fired =
  filter (fun name => fires (options_get options name))
    (map snd (JsObject.sorted_indices registry)
       ++ filter JsObject.plain (JsObject.names registry)) /\
  StronglySorted JsObject.index_le (JsObject.sorted_indices registry) /\
  (forall n name,
     In (n, name) (JsObject.sorted_indices registry) <->
     In name (JsObject.names registry) /\
     JsObject.array_index name = Some n) /\
  (forall name n,
     JsObject.array_index name = Some n <->
     name = NilZero.string_of_uint (N.to_uint n) /\ (n < 4294967295)%N) /\
  (forall name,
     JsObject.plain name = true <->
     JsObject.array_index name = None /\ name <> JsObject.proto) /\
  (exists n,
     trace (snd r) =
     trace s ++ map (fun entry => flag_event options command (fst entry))
                  (firstn n fired) /\
     (fst r = inr tt -> firstn n fired = fired)) /\
  (forall name handler opts,
     JsObject.names (flags (this (snd (flag name handler opts s)))) =
     if in_dec string_dec name (JsObject.names registry)
     then JsObject.names registry
     else JsObject.names registry ++ [name]) /\
  (forall argv a0 rest s0,
     nth argv (heap s0) [] = a0 :: rest ->
     String.prefix "-" a0 = true ->
     handle argv s0 =
     (parsedOptions <- call_parse (flags (this s0)) (a0 :: rest) None ;;
      _executeGlobalFlagsHandlers parsedOptions None ;;
      ret VUndefined) s0) /\
  (forall argv a0 rest found s0,
     nth argv (heap s0) [] = a0 :: rest ->
     String.prefix "-" a0 = false ->
     JsObject.get (commands (this s0)) a0 = Some found ->
     handle argv s0 =
     (parsedOptions <- call_parse (flags (this s0)) rest (Some found) ;;
      _executeGlobalFlagsHandlers parsedOptions (Some found) ;;
      commandInstance <- new found ;;
      call_handle found
        (set_flags parsedOptions (Command.flags found)
           (set_args parsedOptions 0 (Command.args found)
              (JsObject.set commandInstance "parsed" (FParsed parsedOptions)))))
       (spliced argv s0)).
Proof.
  intros registry fired r.
  assert (Hr : r = forEach fired (call_handler options command) s)
    by apply _executeGlobalFlagsHandlers_firing.
  destruct (obj_keys_order registry) as (Hkeys & Hsorted & Hindices).
  split; [exact Hr|].
  split; [|split; [|split; [|split; [|split; [|split; [|split; [|split; [|split]]]]]]]].
  - intros name f. unfold fired, firing.
    rewrite filter_In, obj_in_entries, obj_in_keys, fires_spec. tauto.
  - unfold fired, firing. rewrite <- Hkeys, <- obj_entries_keys.
    induction (JsObject.entries registry) as [|[name f] entries IH];
      [reflexivity|].
    simpl. destruct (fires (options_get options name)); simpl;
      now rewrite IH.
  - exact Hsorted.
  - exact Hindices.
  - apply array_index_spec.
  - apply plain_spec.
  - rewrite Hr. apply forEach_call_handler_trace.
  - intros name handler opts. simpl. apply obj_names_set.
  - intros argv a0 rest s0. apply handle_without_command.
  - intros argv a0 rest found s0. apply handle_found.
Qed.


(** C6: when [argv[0]] names a registered command, [handle] leaves in the
    caller's array only its first element, whatever happens afterwards;
    the elements removed are what the parser is called with, and the other
    arrays are as before. *)
Theorem handle_splices_argv argv a0 rest (command : Command.t W) s :
  nth argv (heap s) [] = a0 :: rest ->
  String.prefix "-" a0 = false ->
  JsObject.get (commands (this s)) a0 = Some command ->
  let s' := snd (handle argv s) in
  nth argv (heap s') [] = [a0] /\
  (forall l, l <> argv -> nth l (heap s') [] = nth l (heap s) []) /\
  (exists later, trace s' = trace s ++ EvParse rest (Some command) :: later).
Proof.
  intros Ha Hp Hc s'. unfold s'.
  rewrite (handle_found argv a0 rest command) by assumption.
  destruct (dispatch_calls (flags (this s)) command rest (spliced argv s))
    as (_ & Hheap & _).
  rewrite Hheap. unfold spliced at 1 2. simpl. rewrite Ha. simpl.
  split; [|split].
  - apply nth_update_same. now apply (nth_allocated _ _ a0 rest).
  - intros l Hl. now apply nth_update_other.
  - apply (dispatch_parses_tail (flags (this s)) command rest (spliced argv s)).
Qed.



(** C9: on an empty [argv], [handle] returns [undefined] and the state is
    as before: no call was made, the registries, the arrays and the world
    are unchanged. *)
Theorem handle_empty_argv argv s :
  nth argv (heap s) [] = [] ->
  handle argv s = (inr VUndefined, s) /\
  this (snd (handle argv s)) = this s /\
  trace (snd (handle argv s)) = trace s.
Proof.
  intros Ha. rewrite handle_no_argv by assumption. now repeat split.
Qed.


End Claims.

(** * The claims on the fixtures *)

Module Examples.
Import Fixtures.




(** [greet Virk 28 --env=prod] on the kernel of the example. *)
Lemma handle_populates_instance_witness :
  Forall (fun arg => CommandArg.name arg <> JsObject.proto)
    (Command.args Greet) /\
  Forall (fun f => CommandFlag.name f <> JsObject.proto)
    (Command.flags Greet) /\
  handle (collaborators := collaborators) 0
    (start example_kernel ["greet"; "Virk"; "28"; "--env=prod"]) =
  (inr (VString "Virk"),
   {| this := example_kernel;
      heap := [["greet"]];
      world := ["NODE_ENV=prod"];
      trace :=
        [EvParse ["Virk"; "28"; "--env=prod"] (Some Greet);
         EvGlobalFlag "env" (VString "prod")
           (parse_words ["Virk"; "28"; "--env=prod"]) (Some Greet);
         EvNew Greet;
         EvHandle Greet
           [("parsed", FParsed (parse_words ["Virk"; "28"; "--env=prod"]));
            ("name", FValue (VString "Virk"));
            ("age", FValue (VString "28"));
            ("env", FValue (VString "prod"));
            ("entrypoint", FValue VUndefined)]] |}).
Proof.
  assert (Hargs : Forall (fun arg => CommandArg.name arg <> JsObject.proto)
                    (Command.args Greet))
    by (repeat constructor; discriminate).
  assert (Hflags : Forall (fun f => CommandFlag.name f <> JsObject.proto)
                     (Command.flags Greet))
    by (repeat constructor; discriminate).
  split; [exact Hargs|]. split; [exact Hflags|].
  pose proof (handle_populates_instance (collaborators := collaborators)
                0 "greet" ["Virk"; "28"; "--env=prod"] Greet
                (parse_words ["Virk"; "28"; "--env=prod"])
                (start example_kernel ["greet"; "Virk"; "28"; "--env=prod"])
                (snd (_executeGlobalFlagsHandlers
                        (parse_words ["Virk"; "28"; "--env=prod"]) (Some Greet)
                        (snd (log (EvParse ["Virk"; "28"; "--env=prod"]
                                     (Some Greet))
                                (spliced 0
                                   (start example_kernel
                                      ["greet"; "Virk"; "28"; "--env=prod"]))))))
                eq_refl eq_refl eq_refl eq_refl eq_refl Hargs Hflags) as H.
  cbv zeta in H. destruct H as (_ & H & _).
  rewrite (H eq_refl). reflexivity.
Defined.

(** C2: the specification populates the argument [__proto__] of [Tag]
    with the positional [x], and the instance on which [handle()] runs
    holds no field of that name; with the spread [__proto__] of
    [Collect], [handle()] does not run at all and [handle] raises a
    TypeError. *)
Lemma proto_argument_is_not_populated :
  spec_arg_assignments (parse_words ["x"]) (Command.args Tag) =
  [("__proto__", FValue (VString "x"))] /\
  handle (collaborators := collaborators) 0
    (start proto_kernel ["tag"; "x"]) =
  (inr VUndefined,
   {| this := proto_kernel;
      heap := [["tag"]];
      world := ["tag"];
      trace :=
        [EvParse ["x"] (Some Tag);
         EvNew Tag;
         EvHandle Tag [("parsed", FParsed (parse_words ["x"]))]] |}) /\
  JsObject.get [("parsed", FParsed (parse_words ["x"]))] "__proto__" = None /\
  handle (collaborators := collaborators) 0
    (start proto_kernel ["collect"; "a"; "b"]) =
  (inl (TypeError "commandInstance.handle is not a function"),
   {| this := proto_kernel;
      heap := [["collect"]];
      world := [];
      trace := [EvParse ["a"; "b"] (Some Collect); EvNew Collect] |}).
Proof. repeat split. Qed.

(** [--env=prod] on the kernel of the example, and the order of the
    calls on a registry with the names [verbose], [10] and [9]. *)
Lemma global_flag_handlers_fire_witness :
  _executeGlobalFlagsHandlers (parse_words ["--env=prod"]) None
    (start example_kernel ["--env=prod"]) =
  (inr tt,
   {| this := example_kernel;
      heap := [["--env=prod"]];
      world := ["NODE_ENV=prod"];
      trace :=
        [EvGlobalFlag "env" (VString "prod") (parse_words ["--env=prod"])
           None] |}) /\
  map fst
    (firing (parse_words ["--verbose=on"; "--10=on"; "--9=on"])
       (flags numbered_kernel)) =
  ["9"; "10"; "verbose"].
Proof.
  split.
  - rewrite (proj1 (global_flag_handlers_fire (collaborators := collaborators)
                      (parse_words ["--env=prod"]) None
                      (start example_kernel ["--env=prod"]))).
    reflexivity.
  - pose proof (global_flag_handlers_fire (collaborators := collaborators)
                  (parse_words ["--verbose=on"; "--10=on"; "--9=on"]) None
                  (start numbered_kernel [])) as H.
    cbv zeta in H. destruct H as (_ & _ & H & _).
    cbn [this flags start] in H. rewrite H. reflexivity.
Defined.

(** Counterexample to C3 as stated: the flags are registered in the
    order [verbose], [10], [9], and their handlers are called in the
    order [9], [10], [verbose]. *)
Lemma flags_fire_in_key_order :
  numbered_flags (start empty_kernel []) =
  (inr tt, start numbered_kernel []) /\
  JsObject.names (flags numbered_kernel) = ["verbose"; "10"; "9"] /\
  _executeGlobalFlagsHandlers
    (parse_words ["--verbose=on"; "--10=on"; "--9=on"]) None
    (start numbered_kernel []) =
  (inr tt,
   {| this := numbered_kernel;
      heap := [[]];
      world := ["nine=on"; "ten=on"; "verbose=on"];
      trace :=
        [EvGlobalFlag "9" (VString "on")
           (parse_words ["--verbose=on"; "--10=on"; "--9=on"]) None;
         EvGlobalFlag "10" (VString "on")
           (parse_words ["--verbose=on"; "--10=on"; "--9=on"]) None;
         EvGlobalFlag "verbose" (VString "on")
           (parse_words ["--verbose=on"; "--10=on"; "--9=on"]) None] |}).
Proof. repeat split. Qed.

(** [unknown:cmd] on the kernel of the example. *)
Example unknown_command_is_rejected :
  handle (collaborators := collaborators) 0
    (start example_kernel ["unknown:cmd"; "x"]) =
  (inl (NotRegistered "unknown:cmd"),
   start example_kernel ["unknown:cmd"; "x"]).
Proof. reflexivity. Qed.


(** [greet Virk 28] leaves [greet] in the caller's array. *)
Lemma handle_splices_argv_witness :
  JsObject.get (commands example_kernel) "greet" = Some Greet /\
  nth 0 (heap (snd (handle (collaborators := collaborators) 0
                      (start example_kernel ["greet"; "Virk"; "28"])))) [] =
  ["greet"].
Proof.
  split; [reflexivity|].
  apply (handle_splices_argv (collaborators := collaborators) 0 "greet"
           ["Virk"; "28"] Greet
           (start example_kernel ["greet"; "Virk"; "28"])
           eq_refl eq_refl eq_refl).
Defined.



(** C8: after two flags under [__proto__] the registry shows the second
    under the name, the parse result holds a value under it that fires,
    and no handler is called. *)
Lemma proto_flag_never_fires :
  JsObject.get
    (flags (this (snd (flag_twice "__proto__"
                         (start empty_kernel ["--__proto__=x"])))))
    "__proto__" =
  Some (assign_flag "__proto__" (writes "second") no_option) /\
  fires (options_get (parse_words ["--__proto__=x"]) "__proto__") = true /\
  handle (collaborators := collaborators) 0
    (snd (flag_twice "__proto__" (start empty_kernel ["--__proto__=x"]))) =
  (inr VUndefined,
   {| this :=
        {| commands := [];
           flags :=
             [("__proto__",
               assign_flag "__proto__" (writes "second") no_option)] |};
      heap := [["--__proto__=x"]];
      world := [];
      trace := [EvParse ["--__proto__=x"] None] |}).
Proof. repeat split. Qed.

(** The empty [argv]. *)
Lemma handle_empty_argv_witness :
  nth 0 (heap (start example_kernel [])) [] = [] /\
  handle (collaborators := collaborators) 0 (start example_kernel []) =
  (inr VUndefined, start example_kernel []).
Proof.
  split; [reflexivity|].
  apply (handle_empty_argv (collaborators := collaborators) 0
           (start example_kernel []) eq_refl).
Defined.


(** The names that are array indices. *)
Example array_indices :
  map JsObject.array_index
    ["0"; "9"; "10"; "4294967294"; "4294967295"; "01"; "1.5"; "-1"; "+1";
     ""; "1e3"; "env"; "__proto__"] =
  [Some 0%N; Some 9%N; Some 10%N; Some 4294967294%N; None; None; None; None;
   None; None; None; None; None].
Proof. reflexivity. Qed.

(** [Object.keys] on names registered in the order [b], [10], [a],
    [__proto__], [9], [01]. *)
Example keys_of_mixed_names :
  JsObject.keys
    (fold_left (fun o k => JsObject.set o k tt)
       ["b"; "10"; "a"; "__proto__"; "9"; "01"; "a"] JsObject.empty) =
  ["9"; "10"; "b"; "a"; "01"].
Proof. reflexivity. Qed.

(** The runs of section 8 of the specification. *)

Example greet_is_populated :
  handle (collaborators := collaborators) 0
    (start example_kernel ["greet"; "Virk"; "28"]) =
  (inr (VString "Virk"),
   {| this := example_kernel;
      heap := [["greet"]];
      world := [];
      trace :=
        [EvParse ["Virk"; "28"] (Some Greet);
         EvNew Greet;
         EvHandle Greet
           [("parsed", FParsed (parse_words ["Virk"; "28"]));
            ("name", FValue (VString "Virk"));
            ("age", FValue (VString "28"));
            ("env", FValue VUndefined);
            ("entrypoint", FValue VUndefined)]] |}).
Proof. reflexivity. Qed.

Example env_flag_alone :
  handle (collaborators := collaborators) 0
    (start example_kernel ["--env=prod"]) =
  (inr VUndefined,
   {| this := example_kernel;
      heap := [["--env=prod"]];
      world := ["NODE_ENV=prod"];
      trace :=
        [EvParse ["--env=prod"] None;
         EvGlobalFlag "env" (VString "prod") (parse_words ["--env=prod"])
           None] |}).
Proof. reflexivity. Qed.

(** An empty value does not fire. *)
Example empty_env_flag :
  handle (collaborators := collaborators) 0
    (start example_kernel ["--env="]) =
  (inr VUndefined,
   {| this := example_kernel;
      heap := [["--env="]];
      world := [];
      trace := [EvParse ["--env="] None] |}).
Proof. reflexivity. Qed.

(** A missing positional is [undefined] on the instance. *)
Example greet_without_age :
  fst (handle (collaborators := collaborators) 0
         (start example_kernel ["greet"; "Virk"])) = inr (VString "Virk") /\
  trace (snd (handle (collaborators := collaborators) 0
                (start example_kernel ["greet"; "Virk"]))) =
  [EvParse ["Virk"] (Some Greet);
   EvNew Greet;
   EvHandle Greet
     [("parsed", FParsed (parse_words ["Virk"]));
      ("name", FValue (VString "Virk"));
      ("age", FValue VUndefined);
      ("env", FValue VUndefined);
      ("entrypoint", FValue VUndefined)]].
Proof. split; reflexivity. Qed.

(** The array is cut down even when the parser raises. *)
Example greet_with_a_strict_parser :
  handle (collaborators := strict) 0
    (start example_kernel ["greet"; "Virk"; "28"]) =
  (inl (Foreign "invalid arguments"),
   {| this := example_kernel;
      heap := [["greet"]];
      world := [];
      trace := [EvParse ["Virk"; "28"] (Some Greet)] |}).
Proof. reflexivity. Qed.

(** A spread receives the positionals from its index on. *)
Example pack_spreads :
  JsObject.get
    (set_args (parse_words ["a.zip"; "9"; "x"; "y"]) 0 (Command.args Pack)
       JsObject.empty) "files" =
  Some (FValue (VArray [VString "x"; VString "y"])).
Proof. reflexivity. Qed.

(** A spread that is not last is rejected. *)
Example move_is_rejected :
  register [Pack; Move] (start empty_kernel []) =
  (inl SpreadNotLast,
   start {| commands := [stored Pack]; flags := [] |} []).
Proof. reflexivity. Qed.

(** A flag registered again keeps its place and changes its handler. *)
Example env_registered_twice :
  world
    (snd ((flag "env" (writes "first") string_option ;;
           flag "verbose" (writes "verbose") no_option ;;
           flag "env" (writes "second") string_option ;;
           _executeGlobalFlagsHandlers
             (parse_words ["--verbose"; "--env=prod"]) None)
            (start empty_kernel []))) =
  ["second=prod"; "verbose="].
Proof. reflexivity. Qed.

(** A handler that raises stops the loop: the error reaches the caller
    and the handlers after it are not called. *)
Example a_handler_raises :
  (flag "env" (fails "no such environment") string_option ;;
   flag "verbose" (writes "verbose") no_option ;;
   _executeGlobalFlagsHandlers
     (parse_words ["--verbose"; "--env=prod"]) None)
    (start empty_kernel []) =
  (inl (Foreign "no such environment"),
   {| this :=
        {| commands := [];
           flags :=
             [("env",
               assign_flag "env" (fails "no such environment") string_option);
              ("verbose",
               assign_flag "verbose" (writes "verbose") no_option)] |};
      heap := [[]];
      world := [];
      trace :=
        [EvGlobalFlag "env" (VString "prod")
           (parse_words ["--verbose"; "--env=prod"]) None] |}).
Proof. reflexivity. Qed.

End Examples.

(** * Further properties of the kernel *)

(** ** [register] and [flag] *)

Section MoreRegistration.
Context {W : Type}.
Implicit Type s : State W.

Lemma register_frame batch : forall s,
  flags (this (snd (register batch s))) = flags (this s) /\
  heap (snd (register batch s)) = heap s /\
  world (snd (register batch s)) = world s /\
  trace (snd (register batch s)) = trace s /\
  exists added,
    JsObject.names (commands (this (snd (register batch s)))) =
    JsObject.names (commands (this s)) ++ added.
Proof.
  induction batch as [|command rest IH]; intros s.
  - rewrite register_nil. simpl. repeat split. exists []. now rewrite app_nil_r.
  - rewrite register_cons. destruct (_validateCommand command) as [e|[]].
    + simpl. repeat split. exists []. now rewrite app_nil_r.
    + destruct (IH (with_commands
                      (JsObject.set (commands (this s)) (fst (stored command))
                         command) s))
        as (Hf & Hh & Hw & Ht & added & Hk).
      simpl in *. split; [exact Hf|]. split; [exact Hh|]. split; [exact Hw|].
      split; [exact Ht|].
      destruct (in_dec string_dec (property_key (Command.commandName command))
                  (JsObject.names (commands (this s)))) as [Hin|Hnin].
      * exists added. now rewrite Hk, obj_names_set_old.
      * exists (property_key (Command.commandName command) :: added).
        rewrite Hk, obj_names_set_new by assumption. now rewrite <- app_assoc.
Qed.

(** Among the names [Object.keys] lists, the plain ones are the plain
    names of the object. *)
Lemma filter_plain_keys {V : Type} (o : JsObject.t V) :
  filter JsObject.plain (JsObject.keys o) = JsObject.plain_names o.
Proof.
  unfold JsObject.keys, JsObject.plain_names. rewrite filter_app.
  replace (filter JsObject.plain (map snd (JsObject.sorted_indices o)))
    with (@nil string).
  - simpl. induction (JsObject.names o) as [|k l IH]; [reflexivity|].
    simpl. destruct (JsObject.plain k) eqn:E; simpl;
      [rewrite E; now f_equal | exact IH].
  - symmetry.
    assert (H : forall k, In k (map snd (JsObject.sorted_indices o)) ->
                          JsObject.plain k = false).
    { intros k Hk. apply in_map_iff in Hk as ([n k'] & E & Hin).
      simpl in E. subst k'.
      apply (proj2 (proj2 (obj_keys_order o))) in Hin as [_ Hi].
      unfold JsObject.plain. now rewrite Hi. }
    induction (map snd (JsObject.sorted_indices o)) as [|k l IH];
      [reflexivity|].
    simpl. rewrite (H k) by now left. apply IH.
    intros k' Hk'. apply H. now right.
Qed.

(** X1: registering a batch in one call is registering its two halves in
    two calls, in the result and in the state, also when a command of the
    batch is invalid. *)
Theorem register_in_two_calls (pre post : list (Command.t W)) s :
  register (pre ++ post) s = (register pre ;; register post) s.
Proof.
  rewrite register_app. unfold bind.
  destruct (register pre s) as [[e|[]] s']; reflexivity.
Qed.


(** X3: whatever the batch and whether or not it is rejected, [register]
    removes no command: every name that [Object.keys] lists before is
    listed afterwards, the names among them that are not array indices
    come first, in their order, among such names afterwards, every name
    under which the registry holds a command still holds one, and the
    flag registry is untouched. *)
Theorem register_removes_nothing (batch : list (Command.t W)) s :
  let before := commands (this s) in
  let after := commands (this (snd (register batch s))) in
  (forall name,
     In name (JsObject.keys before) -> In name (JsObject.keys after)) /\
  (exists added,
     filter JsObject.plain (JsObject.keys after) =
     filter JsObject.plain (JsObject.keys before) ++ added) /\
  (forall name,
     JsObject.get before name <> None -> JsObject.get after name <> None) /\
  flags (this (snd (register batch s))) = flags (this s).
Proof.
  intros before after.
  destruct (register_frame batch s) as (Hf & _ & _ & _ & added & Hk).
  fold before after in Hk.
  split; [|split; [|split; [|exact Hf]]].
  - intros name Hin. apply obj_in_keys in Hin as [Hin Hne].
    apply obj_in_keys. split; [|exact Hne].
    rewrite Hk. apply in_or_app. now left.
  - exists (filter JsObject.plain added).
    rewrite !filter_plain_keys. unfold JsObject.plain_names.
    now rewrite Hk, filter_app.
  - intros name Hget Hnone. apply obj_get_None_names in Hnone.
    apply Hnone. rewrite Hk. apply in_or_app. left.
    destruct (JsObject.get before name) as [c|] eqn:E; [|contradiction].
    now apply obj_get_Some_names in E.
Qed.

(** [register] keeps valid entries valid. *)
Lemma register_keeps_valid batch : forall s,
  Forall valid_entry (commands (this s)) ->
  Forall valid_entry (commands (this (snd (register batch s)))).
Proof.
  induction batch as [|command rest IH]; intros s Hs; [exact Hs|].
  rewrite register_cons.
  destruct (_validateCommand command) as [e|[]] eqn:Hc; [exact Hs|].
  apply IH. simpl. apply Forall_set; [assumption|].
  split; simpl; [assumption|].
  apply _validateCommand_named in Hc.
  destruct (Command.commandName command); [reflexivity | discriminate].
Qed.

(** X4: [flag] checks nothing and cannot fail, whatever the name; the name
    then finds the descriptor that carries the name, the handler given
    and, of the options, the type when the key is there, also when it
    holds [undefined], and the type boolean when it is not; under a name
    other than [__proto__] [Object.keys] lists the flag, and under any
    name a value that fires makes the callback of the loop call the
    handler given; the other flags, the commands, the arrays, the world
    and the trace are as before, and every descriptor of the registry
    still carries the name it is stored under. *)
Theorem flag_stores_descriptor name (handler : GlobalFlagHandler W) opts s :
  let r := flag name handler opts s in
  let descriptor := assign_flag name handler opts in
  fst r = inr tt /\
  JsObject.get (flags (this (snd r))) name = Some descriptor /\
  GlobalFlag.name descriptor = name /\
  GlobalFlag.handler descriptor = handler /\
  (opt_type opts = None -> GlobalFlag.type descriptor = Some FlagBoolean) /\
  (forall type, opt_type opts = Some type -> GlobalFlag.type descriptor = type) /\
  (name <> JsObject.proto -> In name (JsObject.keys (flags (this (snd r))))) /\
  (name = JsObject.proto ->
   JsObject.keys (flags (this (snd r))) = JsObject.keys (flags (this s))) /\
  (forall options command,
     fires (options_get options name) = true ->
     execute_handler options command name (snd r) =
     (log (EvGlobalFlag name (options_get options name) options command) ;;
      user (handler (options_get options name) options command)) (snd r)) /\
  (forall other, other <> name ->
     JsObject.get (flags (this (snd r))) other =
     JsObject.get (flags (this s)) other) /\
  (Forall named_entry (flags (this s)) ->
   Forall named_entry (flags (this (snd r)))) /\
  commands (this (snd r)) = commands (this s) /\
  heap (snd r) = heap s /\ world (snd r) = world s /\ trace (snd r) = trace s.
Proof.
  intros r descriptor.
  assert (Hget : JsObject.get (flags (this (snd r))) name = Some descriptor)
    by apply obj_get_set_same.
  split; [reflexivity|]. split; [exact Hget|].
  split; [reflexivity|]. split; [reflexivity|].
  split; [intros H; unfold descriptor; simpl; now rewrite H|].
  split; [intros type H; unfold descriptor; simpl; now rewrite H|].
  split; [intros Hne; now apply (obj_get_Some_keys _ _ _ Hget)|].
  split; [intros ->; apply obj_keys_set_proto|].
  split.
  { intros options command Hfires.
    rewrite (execute_handler_registered options command name _ _ Hget).
    now rewrite Hfires. }
  split; [intros other Hne; now apply obj_get_set_other|].
  split; [|now repeat split].
  intros Hs. now apply Forall_set.
Qed.

End MoreRegistration.

(** ** What the errors of [_validateCommand] tell *)

Section Diagnosis.
Context {W : Type}.

Lemma not_last_test (rest : list CommandArg.t) length index :
  length = index + S (List.length rest) ->
  (index + 1 <? length) = negb (match rest with [] => true | _ => false end).
Proof.
  intros Hlen. destruct rest; simpl in *.
  - apply Nat.ltb_ge. lia.
  - apply Nat.ltb_lt. lia.
Qed.

Lemma validate_each_optional rest : forall length optionalArg index o r,
  length = index + List.length rest ->
  validate_each length optionalArg index rest =
  inl (OptionalBeforeRequired o r) ->
  (exists optional required post,
     optionalArg = Some optional /\ rest = required :: post /\
     CommandArg.name optional = o /\ CommandArg.name required = r /\
     CommandArg.required required = true) \/
  (exists pre optional required post,
     rest = pre ++ optional :: required :: post /\
     CommandArg.name optional = o /\ CommandArg.required optional = false /\
     is_spread optional = false /\
     CommandArg.name required = r /\ CommandArg.required required = true).
Proof.
  induction rest as [|arg rest IH]; intros length optionalArg index o r Hlen;
    simpl; [discriminate|].
  simpl in Hlen. rewrite (not_last_test rest length index Hlen).
  destruct (CommandArg.required arg) eqn:Hreq.
  - destruct optionalArg as [optional|].
    + intros H. inversion H; subst. left.
      exists optional, arg, rest. now repeat split.
    + destruct (is_spread arg && negb match rest with [] => true | _ => false end);
        [discriminate|]. simpl.
      intros H. apply IH in H; [|lia].
      destruct H as [(optional & required & post & E & _)
                    |(pre & optional & required & post & -> & H)];
        [discriminate|].
      right. now exists (arg :: pre), optional, required, post.
  - assert (Hstep :
      (if is_spread arg && negb match rest with [] => true | _ => false end
       then inl SpreadNotLast
       else validate_each length (Some arg) (index + 1) rest) =
      inl (OptionalBeforeRequired o r) ->
      exists pre optional required post,
        arg :: rest = pre ++ optional :: required :: post /\
        CommandArg.name optional = o /\ CommandArg.required optional = false /\
        is_spread optional = false /\
        CommandArg.name required = r /\ CommandArg.required required = true).
    { destruct (is_spread arg && negb match rest with [] => true | _ => false end)
        eqn:Hcheck; [discriminate|].
      intros H. apply IH in H; [|lia].
      destruct H as [(optional & required & post & E & -> & Ho & Hr & Hrr)
                    |(pre & optional & required & post & -> & H)].
      - inversion E; subst optional.
        exists [], arg, required, post. simpl in Hcheck.
        rewrite andb_true_r in Hcheck. now repeat split.
      - now exists (arg :: pre), optional, required, post. }
    destruct optionalArg as [optional|]; simpl; intros H; right; now apply Hstep.
Qed.

Lemma validate_each_spread rest : forall length optionalArg index,
  length = index + List.length rest ->
  validate_each length optionalArg index rest = inl SpreadNotLast ->
  exists pre spread next post,
    rest = pre ++ spread :: next :: post /\
    is_spread spread = true /\
    forallb (fun arg => negb (is_spread arg)) pre = true.
Proof.
  induction rest as [|arg rest IH]; intros length optionalArg index Hlen;
    simpl; [discriminate|].
  simpl in Hlen. rewrite (not_last_test rest length index Hlen).
  assert (Hstep :
    forall optionalArg',
      (if is_spread arg && negb match rest with [] => true | _ => false end
       then inl SpreadNotLast
       else validate_each length optionalArg' (index + 1) rest) =
      inl SpreadNotLast ->
      exists pre spread next post,
        arg :: rest = pre ++ spread :: next :: post /\
        is_spread spread = true /\
        forallb (fun arg => negb (is_spread arg)) pre = true).
  { intros optionalArg'. destruct (is_spread arg) eqn:Hs; simpl.
    - destruct rest as [|next post]; simpl.
      + discriminate.
      + intros _. now exists [], arg, next, post.
    - intros H. apply IH in H; [|lia].
      destruct H as (pre & spread & next & post & -> & Hsp & Hpre).
      exists (arg :: pre), spread, next, post. simpl. now rewrite Hs, Hpre. }
  destruct optionalArg as [optional|], (CommandArg.required arg);
    try discriminate; apply Hstep.
Qed.

(** X5: when [_validateCommand] raises the error of an optional argument
    before a required one, the two arguments the error names stand next to
    each other in the list: the optional one, which is not a spread, and
    right after it the required one. *)
Theorem optional_error_names_neighbours (command : Command.t W) o r :
  _validateCommand command = inl (OptionalBeforeRequired o r) ->
  exists pre optional required post,
    Command.args command = pre ++ optional :: required :: post /\
    CommandArg.name optional = o /\ CommandArg.required optional = false /\
    is_spread optional = false /\
    CommandArg.name required = r /\ CommandArg.required required = true.
Proof.
  unfold _validateCommand.
  destruct (no_name (Command.commandName command)); [discriminate|].
  intros H. apply validate_each_optional in H; [|reflexivity].
  destruct H as [(optional & required & post & E & _)|H];
    [discriminate | exact H].
Qed.

(** X6: when [_validateCommand] raises the error of a spread that is not
    last, the command has a name and its first spread argument is
    followed by another argument. *)
Theorem spread_error_finds_spread (command : Command.t W) :
  _validateCommand command = inl SpreadNotLast ->
  no_name (Command.commandName command) = false /\
  exists pre spread next post,
    Command.args command = pre ++ spread :: next :: post /\
    is_spread spread = true /\
    forallb (fun arg => negb (is_spread arg)) pre = true.
Proof.
  unfold _validateCommand.
  destruct (no_name (Command.commandName command)); [discriminate|].
  intros H. split; [reflexivity|].
  now apply validate_each_spread in H.
Qed.

End Diagnosis.

(** ** Validation and the loop of [handle] *)

Section ValidatedArguments.
Context {W : Type}.

Lemma validate_each_no_break options rest :
  forall length optionalArg index i commandInstance,
  length = index + List.length rest ->
  validate_each length optionalArg index rest = inr tt ->
  set_args options i rest commandInstance =
  assign_every_arg options i rest commandInstance.
Proof.
  induction rest as [|arg rest IH];
    intros length optionalArg index i commandInstance Hlen; [reflexivity|].
  simpl. simpl in Hlen. rewrite (not_last_test rest length index Hlen).
  unfold assign_every_arg. simpl. unfold arg_value at 2. simpl.
  assert (Hstep :
    forall optionalArg',
      (if is_spread arg && negb match rest with [] => true | _ => false end
       then inl SpreadNotLast
       else validate_each length optionalArg' (index + 1) rest) = inr tt ->
      (if is_spread arg
       then assign commandInstance (CommandArg.name arg)
              (positionals_from options i)
       else set_args options (i + 1) rest
              (assign commandInstance (CommandArg.name arg)
                 (positional_at options i))) =
      fold_left
        (fun instance numbered =>
           assign instance (CommandArg.name (snd numbered))
             (arg_value options (fst numbered) (snd numbered)))
        (combine (seq (S i) (List.length rest)) rest)
        (assign commandInstance (CommandArg.name arg)
           (if is_spread arg then positionals_from options i
            else positional_at options i))).
  { intros optionalArg'. destruct (is_spread arg); simpl.
    - destruct rest; simpl; [reflexivity | discriminate].
    - intros H. rewrite Nat.add_1_r.
      apply (IH length optionalArg' (index + 1)); [lia | assumption]. }
  destruct optionalArg as [optional|], (CommandArg.required arg);
    try discriminate; apply Hstep.
Qed.

Lemma assign_every_arg_keeps options rest : forall i commandInstance k,
  JsObject.get commandInstance k <> None ->
  JsObject.get (assign_every_arg options i rest commandInstance) k <> None.
Proof.
  induction rest as [|arg rest IH]; intros i commandInstance k H; [exact H|].
  unfold assign_every_arg. simpl. apply (IH (S i)). now apply assign_keeps.
Qed.

Lemma assign_every_arg_has options rest : forall i commandInstance arg,
  In arg rest -> CommandArg.name arg <> JsObject.proto ->
  JsObject.get (assign_every_arg options i rest commandInstance)
    (CommandArg.name arg) <> None.
Proof.
  induction rest as [|arg' rest IH]; intros i commandInstance arg Hin Hne;
    [contradiction|].
  unfold assign_every_arg. simpl. destruct Hin as [->|Hin].
  - apply (assign_every_arg_keeps options rest (S i)).
    now apply assign_has.
  - now apply (IH (S i)).
Qed.

Lemma assign_every_arg_other options rest : forall i commandInstance k,
  ~ In k (map CommandArg.name rest) ->
  JsObject.get (assign_every_arg options i rest commandInstance) k =
  JsObject.get commandInstance k.
Proof.
  induction rest as [|arg rest IH]; intros i commandInstance k Hnin;
    [reflexivity|].
  unfold assign_every_arg. simpl.
  change (JsObject.get
            (assign_every_arg options (S i) rest
               (assign commandInstance (CommandArg.name arg)
                  (arg_value options i arg))) k =
          JsObject.get commandInstance k).
  rewrite IH by (intros H; apply Hnin; now right).
  apply assign_other. intros ->. apply Hnin. now left.
Qed.

Lemma assign_every_arg_get options rest : forall start commandInstance i arg,
  nth_error rest i = Some arg ->
  CommandArg.name arg <> JsObject.proto ->
  NoDup (map CommandArg.name rest) ->
  JsObject.get (assign_every_arg options start rest commandInstance)
    (CommandArg.name arg) =
  Some (FValue (arg_value options (start + i) arg)).
Proof.
  induction rest as [|arg' rest IH]; intros start commandInstance i arg Hnth
    Hne ND.
  - destruct i; discriminate.
  - simpl in ND. inversion ND as [|? ? Hnin ND']; subst.
    unfold assign_every_arg. simpl.
    change (JsObject.get
              (assign_every_arg options (S start) rest
                 (assign commandInstance (CommandArg.name arg')
                    (arg_value options start arg')))
              (CommandArg.name arg) =
            Some (FValue (arg_value options (start + i) arg))).
    destruct i as [|i]; simpl in Hnth.
    + inversion Hnth; subst arg'.
      rewrite assign_every_arg_other by assumption.
      rewrite assign_plain by assumption.
      now rewrite obj_get_set_same, Nat.add_0_r.
    + rewrite (IH (S start) _ i arg) by assumption.
      now rewrite Nat.add_succ_r.
Qed.

(** The loop of a valid command makes one assignment for every
    argument. *)
Lemma valid_arguments_are_fields (command : Command.t W) options
  commandInstance :
  _validateCommand command = inr tt ->
  set_args options 0 (Command.args command) commandInstance =
  assign_every_arg options 0 (Command.args command) commandInstance.
Proof.
  intros Hvalid. unfold _validateCommand in Hvalid.
  destruct (no_name (Command.commandName command)); [discriminate|].
  now apply (validate_each_no_break options (Command.args command)
               (List.length (Command.args command)) None 0).
Qed.

(** X7: for a command that passes [_validateCommand], the [break] of the
    loop of [handle] leaves no argument out: the loop makes one assignment
    for every declared argument, so every argument with a name other than
    [__proto__] is a field of the instance, and a field that a name other
    than [__proto__] has not been assigned since holds the value of the
    argument of that name. *)
Theorem validated_arguments_all_set (command : Command.t W) options
  commandInstance :
  _validateCommand command = inr tt ->
  set_args options 0 (Command.args command) commandInstance =
  assign_every_arg options 0 (Command.args command) commandInstance /\
  (forall arg, In arg (Command.args command) ->
     CommandArg.name arg <> JsObject.proto ->
     JsObject.get (set_args options 0 (Command.args command) commandInstance)
       (CommandArg.name arg) <> None) /\
  (forall i arg,
     nth_error (Command.args command) i = Some arg ->
     CommandArg.name arg <> JsObject.proto ->
     NoDup (map CommandArg.name (Command.args command)) ->
     JsObject.get (set_args options 0 (Command.args command) commandInstance)
       (CommandArg.name arg) =
     Some (FValue (if is_spread arg then positionals_from options i
                   else positional_at options i))).
Proof.
  intros Hvalid. split; [now apply valid_arguments_are_fields|]. split.
  - intros arg Hin Hne. rewrite valid_arguments_are_fields by assumption.
    now apply assign_every_arg_has.
  - intros i arg Hnth Hne ND.
    rewrite valid_arguments_are_fields by assumption.
    now rewrite (assign_every_arg_get options _ 0 _ i arg).
Qed.

End ValidatedArguments.

(** ** The paths of [handle] *)

Section MoreDispatch.
Context {W : Type} {collaborators : Collaborators W}.
Implicit Type s : State W.

(** [dispatch] step by step. *)
Lemma dispatch_steps parser (command : Command.t W) tail s :
  dispatch parser command tail s =
  match parse parser tail (Some command) with
  | inl payload =>
      (inl (Foreign payload), snd (log (EvParse tail (Some command)) s))
  | inr options =>
      match _executeGlobalFlagsHandlers options (Some command)
              (snd (log (EvParse tail (Some command)) s)) with
      | (inl e, s2) => (inl e, s2)
      | (inr _, s2) =>
          call_handle command
            (set_flags options (Command.flags command)
               (set_args options 0 (Command.args command)
                  (JsObject.set JsObject.empty "parsed" (FParsed options))))
            (snd (new command s2))
      end
  end.
Proof.
  unfold dispatch, call_parse. rewrite bind_assoc. unfold bind at 1. simpl.
  destruct (parse parser tail (Some command)) as [payload|options];
    [reflexivity|].
  unfold bind at 1. simpl. unfold bind at 1.
  destruct (_executeGlobalFlagsHandlers options (Some command) _)
    as [[e|[]] s2]; reflexivity.
Qed.

(** The calls of [dispatch], in order: the parser, the flag handlers, the
    constructor, the [handle()] method. *)
Lemma dispatch_trace parser (command : Command.t W) tail s :
  exists handlers last,
    trace (snd (dispatch parser command tail s)) =
    trace s ++ EvParse tail (Some command) :: handlers ++ last /\
    forallb is_flag_call handlers = true /\
    (last = [] \/ last = [EvNew command] \/
     exists commandInstance,
       last = [EvNew command; EvHandle command commandInstance]) /\
    (forall v, fst (dispatch parser command tail s) = inr v ->
       exists commandInstance,
         last = [EvNew command; EvHandle command commandInstance]).
Proof.
  rewrite dispatch_steps.
  destruct (parse parser tail (Some command)) as [payload|options].
  - exists [], []. simpl. split; [reflexivity|]. split; [reflexivity|].
    split; [now left | discriminate].
  - destruct (_executeGlobalFlagsHandlers_calls options (Some command)
                is_flag_call (fun _ => eq_refl)
                (snd (log (EvParse tail (Some command)) s)))
      as (_ & _ & (handlers & Ht & Hall) & _).
    destruct (_executeGlobalFlagsHandlers options (Some command)
                (snd (log (EvParse tail (Some command)) s)))
      as [[e|[]] s2]; simpl in Ht.
    + exists handlers, []. simpl. rewrite Ht, app_nil_r, <- app_assoc.
      split; [reflexivity|]. split; [assumption|].
      split; [now left | discriminate].
    + unfold call_handle.
      match goal with
      | |- context [JsObject.get ?i "handle"] =>
          set (commandInstance := i)
      end.
      assert (Hthrow :
        exists handlers0 last,
          trace (snd (@throw W JsValue
                        (TypeError "commandInstance.handle is not a function")
                        (snd (new command s2)))) =
          trace s ++ EvParse tail (Some command) :: handlers0 ++ last /\
          forallb is_flag_call handlers0 = true /\
          (last = [] \/ last = [EvNew command] \/
           exists commandInstance,
             last = [EvNew command; EvHandle command commandInstance]) /\
          (forall v,
             fst (@throw W JsValue
                    (TypeError "commandInstance.handle is not a function")
                    (snd (new command s2))) = inr v ->
             exists commandInstance,
               last = [EvNew command; EvHandle command commandInstance])).
      { exists handlers, [EvNew command]. simpl.
        rewrite Ht, <- !app_assoc. simpl.
        split; [reflexivity|]. split; [assumption|].
        split; [right; now left | discriminate]. }
      destruct (JsObject.get commandInstance "handle"); [exact Hthrow|].
      destruct (JsObject.get commandInstance JsObject.proto);
        [exact Hthrow|].
      * exists handlers, [EvNew command; EvHandle command commandInstance].
        unfold bind, log, user. simpl.
        destruct (Command.handle command commandInstance (world s2))
          as [r w]. simpl. rewrite Ht, <- !app_assoc. simpl.
        split; [reflexivity|]. split; [assumption|].
        split; [right; right; now exists commandInstance|].
        intros _ _. now exists commandInstance.
Qed.

(** X8: on the path with a command, the kernel calls the parser first,
    then flag handlers only, then at most once the constructor of the
    command found and after it at most once its [handle()] method: no
    flag handler runs after the command is instantiated, and a call that
    returns has made all of these calls. *)
Theorem handle_calls_in_order argv a0 rest (command : Command.t W) s :
  nth argv (heap s) [] = a0 :: rest ->
  String.prefix "-" a0 = false ->
  JsObject.get (commands (this s)) a0 = Some command ->
  exists handlers last,
    trace (snd (handle argv s)) =
    trace s ++ EvParse rest (Some command) :: handlers ++ last /\
    forallb is_flag_call handlers = true /\
    (last = [] \/ last = [EvNew command] \/
     exists commandInstance,
       last = [EvNew command; EvHandle command commandInstance]) /\
    (forall v, fst (handle argv s) = inr v ->
       exists commandInstance,
         last = [EvNew command; EvHandle command commandInstance]).
Proof.
  intros Ha Hp Hc.
  rewrite (handle_found argv a0 rest command) by assumption.
  apply (dispatch_trace (flags (this s)) command rest (spliced argv s)).
Qed.

(** X9: when the parser raises, [handle] raises the same and nothing else
    is called: no flag handler, no constructor.  On the path with a
    command the caller's array is cut down to its first element all the
    same. *)
Theorem handle_parser_raises argv a0 rest payload s :
  nth argv (heap s) [] = a0 :: rest ->
  (String.prefix "-" a0 = true ->
   parse (flags (this s)) (a0 :: rest) None = inl payload ->
   handle argv s =
   (inl (Foreign payload), snd (log (EvParse (a0 :: rest) None) s))) /\
  (forall command,
     String.prefix "-" a0 = false ->
     JsObject.get (commands (this s)) a0 = Some command ->
     parse (flags (this s)) rest (Some command) = inl payload ->
     handle argv s =
     (inl (Foreign payload),
      snd (log (EvParse rest (Some command)) (spliced argv s))) /\
     nth argv (heap (snd (handle argv s))) [] = [a0]).
Proof.
  intros Ha. split.
  - intros Hp Hparse. rewrite (handle_without_command argv a0 rest) by assumption.
    unfold call_parse. rewrite bind_assoc. unfold bind at 1. simpl.
    now rewrite Hparse.
  - intros command Hp Hc Hparse.
    assert (Hh : handle argv s =
                 (inl (Foreign payload),
                  snd (log (EvParse rest (Some command)) (spliced argv s)))).
    { rewrite (handle_found argv a0 rest command) by assumption.
      now rewrite dispatch_steps, Hparse. }
    split; [exact Hh|]. rewrite Hh. simpl. rewrite Ha. simpl.
    apply nth_update_same. now apply (nth_allocated _ _ a0 rest).
Qed.

(** X10: on the path with a command, when a flag handler raises, [handle]
    raises the same and the command is neither instantiated nor run: after
    the call of the parser the trace holds calls of flag handlers only. *)
Theorem handle_flag_handler_raises argv a0 rest (command : Command.t W)
  options e s s2 :
  nth argv (heap s) [] = a0 :: rest ->
  String.prefix "-" a0 = false ->
  JsObject.get (commands (this s)) a0 = Some command ->
  parse (flags (this s)) rest (Some command) = inr options ->
  _executeGlobalFlagsHandlers options (Some command)
    (snd (log (EvParse rest (Some command)) (spliced argv s))) = (inl e, s2) ->
  handle argv s = (inl e, s2) /\
  exists handlers,
    trace s2 = trace s ++ EvParse rest (Some command) :: handlers /\
    forallb is_flag_call handlers = true.
Proof.
  intros Ha Hp Hc Hparse Hflags.
  split.
  - rewrite (handle_found argv a0 rest command) by assumption.
    now rewrite dispatch_steps, Hparse, Hflags.
  - destruct (_executeGlobalFlagsHandlers_calls options (Some command)
                is_flag_call (fun _ => eq_refl)
                (snd (log (EvParse rest (Some command)) (spliced argv s))))
      as (_ & _ & (handlers & Ht & Hall) & _).
    rewrite Hflags in Ht. simpl in Ht.
    exists handlers. rewrite Ht, <- app_assoc. now split.
Qed.

(** What [dispatch] can raise: what the parser, a flag handler or the
    command body raises, or the TypeError of a [handle] that cannot be
    called, with the command instantiated and nothing called after. *)
Lemma dispatch_raises parser (command : Command.t W) tail s e :
  fst (dispatch parser command tail s) = inl e ->
  (exists payload, e = Foreign payload) \/
  (e = TypeError "commandInstance.handle is not a function" /\
   exists before,
     trace (snd (dispatch parser command tail s)) = before ++ [EvNew command]).
Proof.
  rewrite dispatch_steps.
  destruct (parse parser tail (Some command)) as [payload|options].
  - simpl. intros H. inversion H. left. now exists payload.
  - destruct (_executeGlobalFlagsHandlers options (Some command)
                (snd (log (EvParse tail (Some command)) s)))
      as [[e'|[]] s2] eqn:E.
    + simpl. intros H. inversion H; subst e'. left.
      apply (_executeGlobalFlagsHandlers_raises options (Some command)
               (snd (log (EvParse tail (Some command)) s))).
      now rewrite E.
    + unfold call_handle.
      match goal with
      | |- context [JsObject.get ?i "handle"] => set (commandInstance := i)
      end.
      assert (Hthrow :
        fst (@throw W JsValue
               (TypeError "commandInstance.handle is not a function")
               (snd (new command s2))) = inl e ->
        (exists payload, e = Foreign payload) \/
        (e = TypeError "commandInstance.handle is not a function" /\
         exists before,
           trace (snd (@throw W JsValue
                         (TypeError "commandInstance.handle is not a function")
                         (snd (new command s2)))) =
           before ++ [EvNew command])).
      { simpl. intros H. inversion H. right. split; [reflexivity|].
        now exists (trace s2). }
      destruct (JsObject.get commandInstance "handle"); [exact Hthrow|].
      destruct (JsObject.get commandInstance JsObject.proto);
        [exact Hthrow|].
      unfold bind, log, user. simpl.
      destruct (Command.handle command commandInstance (world s2))
        as [[payload|v] w]; simpl; intros H; inversion H.
      left. now exists payload.
Qed.

(** X11: for an [argv[0]] that the command registry holds or that is
    read from no prototype, an error of [handle] is one of three: the
    error of an unknown command, for an [argv[0]] that does not start
    with [-] and that the registry does not hold, raised with the state as
    it was; an error that the parser, a flag handler or the command body
    has raised; or the TypeError of the engine for a [handle] that is not
    callable on the instance, raised once the command found is
    instantiated. *)
Theorem handle_errors argv s e :
  JsObject.own_read (commands (this s)) (argv0_key (nth argv (heap s) [])) ->
  fst (handle argv s) = inl e ->
  (exists a0 rest,
     nth argv (heap s) [] = a0 :: rest /\ String.prefix "-" a0 = false /\
     JsObject.get (commands (this s)) a0 = None /\
     ~ In a0 (JsObject.keys (commands (this s))) /\
     e = NotRegistered a0 /\ snd (handle argv s) = s) \/
  (exists payload, e = Foreign payload) \/
  (e = TypeError "commandInstance.handle is not a function" /\
   exists a0 rest command before,
     nth argv (heap s) [] = a0 :: rest /\ String.prefix "-" a0 = false /\
     JsObject.get (commands (this s)) a0 = Some command /\
     trace (snd (handle argv s)) = before ++ [EvNew command]).
Proof.
  intros _.
  destruct (nth argv (heap s) []) as [|a0 rest] eqn:Ha.
  - rewrite handle_no_argv by assumption. discriminate.
  - destruct (String.prefix "-" a0) eqn:Hp.
    + intros He. right. left.
      pose proof (handle_without_command argv a0 rest s Ha Hp) as Hr.
      rewrite Hr in He. unfold call_parse in He.
      rewrite bind_assoc in He. unfold bind at 1 in He. simpl in He.
      destruct (parse (flags (this s)) (a0 :: rest) None)
        as [payload|options].
      * inversion He. now exists payload.
      * unfold bind at 1 in He. simpl in He. unfold bind at 1 in He.
        destruct (_executeGlobalFlagsHandlers options None _)
          as [[e'|[]] s2] eqn:E; [|discriminate].
        inversion He; subst e'.
        eapply _executeGlobalFlagsHandlers_raises. now rewrite E.
    + destruct (JsObject.get (commands (this s)) a0) as [command|] eqn:Hc.
      * rewrite (handle_found argv a0 rest command) by assumption.
        intros He. apply dispatch_raises in He as [He|(He & before & Ht)];
          [right; now left|].
        right. right. split; [exact He|].
        now exists a0, rest, command, before.
      * rewrite (handle_not_found argv a0 rest) by assumption.
        intros He. inversion He; subst. left. exists a0, rest.
        split; [reflexivity|]. split; [assumption|].
        split; [assumption|]. split; [now apply obj_get_None_keys|].
        now split.
Qed.

(** X12: whatever the path and the outcome, [handle] leaves both
    registries as they are, changes no array but the one it is given,
    leaves in that one either what it held or its first element only, and
    only adds to the trace. *)
Theorem handle_frame argv s :
  this (snd (handle argv s)) = this s /\
  (forall l, l <> argv ->
     nth l (heap (snd (handle argv s))) [] = nth l (heap s) []) /\
  (nth argv (heap (snd (handle argv s))) [] = nth argv (heap s) [] \/
   nth argv (heap (snd (handle argv s))) [] =
   firstn 1 (nth argv (heap s) [])) /\
  exists calls, trace (snd (handle argv s)) = trace s ++ calls.
Proof.
  split; [apply handle_keeps_kernel|].
  destruct (nth argv (heap s) []) as [|a0 rest] eqn:Ha.
  - rewrite handle_no_argv by assumption. simpl. rewrite Ha.
    split; [reflexivity|]. split; [now left|]. exists []. now rewrite app_nil_r.
  - destruct (String.prefix "-" a0) eqn:Hp.
    + rewrite (handle_without_command argv a0 rest) by assumption.
      destruct (flag_only_calls (flags (this s)) (a0 :: rest) s)
        as (_ & Hh & (delta & Ht & _) & _).
      rewrite Hh, Ha. split; [reflexivity|]. split; [now left|].
      now exists delta.
    + destruct (JsObject.get (commands (this s)) a0) as [command|] eqn:Hc.
      * rewrite (handle_found argv a0 rest command) by assumption.
        destruct (dispatch_calls (flags (this s)) command rest (spliced argv s))
          as (_ & Hh & (delta & Ht & _) & _).
        rewrite Hh. unfold spliced at 1 2. simpl. rewrite Ha. simpl.
        split; [intros l Hl; now apply nth_update_other|].
        split.
        -- right. apply nth_update_same. now apply (nth_allocated _ _ a0 rest).
        -- now exists delta.
      * rewrite (handle_not_found argv a0 rest) by assumption. simpl.
        rewrite Ha. split; [reflexivity|]. split; [now left|].
        exists []. now rewrite app_nil_r.
Qed.

End MoreDispatch.

(** ** Names that [handle] cannot dispatch, and calls in a row *)

Section Reachability.
Context {W : Type} {collaborators : Collaborators W}.
Implicit Type s : State W.

(** X13: in a registry that [register] has filled, no command sits under
    the empty name, so an [argv] whose first element is the empty string
    gets the error of an unknown command, with the state as it was. *)
Theorem empty_name_is_unknown argv rest s :
  Forall well_stored (commands (this s)) ->
  nth argv (heap s) [] = "" :: rest ->
  handle argv s = (inl (NotRegistered ""), s).
Proof.
  intros Hstored Ha.
  apply (handle_not_found argv "" rest); [assumption | reflexivity |].
  destruct (JsObject.get (commands (this s)) "") as [command|] eqn:Hget;
    [|reflexivity].
  apply obj_get_In in Hget. rewrite Forall_forall in Hstored.
  destruct (Hstored _ Hget) as (Hname & Hkey). simpl in *.
  rewrite Hkey in Hname. discriminate.
Qed.

(** X14: [register] accepts a command whose name starts with [-], and
    [find] finds it, but [handle] never dispatches it: an [argv] that
    starts with that name goes the way of the flags, on which the kernel
    calls the parser and flag handlers only. *)
Theorem dash_name_is_not_dispatched (command : Command.t W) name argv rest s :
  _validateCommand command = inr tt ->
  Command.commandName command = Some name ->
  String.prefix "-" name = true ->
  nth argv (heap s) [] = name :: rest ->
  let s1 := snd (register [command] s) in
  fst (register [command] s) = inr tt /\
  fst (find (name :: rest) s1) = inr (Some command) /\
  exists calls,
    trace (snd (handle argv s1)) = trace s1 ++ calls /\
    forallb flag_only_event calls = true.
Proof.
  intros Hvalid Hname Hp Ha s1. unfold s1.
  rewrite register_cons, Hvalid, register_nil. simpl. rewrite Hname. simpl.
  split; [reflexivity|]. split.
  - unfold argv0_key. simpl. now rewrite obj_get_set_same.
  - set (s2 := with_commands _ s).
    rewrite (handle_without_command argv name rest s2) by assumption.
    apply (flag_only_calls (flags (this s2)) (name :: rest) s2).
Qed.

Lemma update_same (h : list (list string)) : forall l,
  update h l (nth l h []) = h.
Proof.
  induction h as [|a h IH]; intros l; [reflexivity|].
  destruct l as [|l]; simpl; [reflexivity | now rewrite IH].
Qed.

Lemma handle_found_heap argv a0 rest (command : Command.t W) s :
  nth argv (heap s) [] = a0 :: rest ->
  String.prefix "-" a0 = false ->
  JsObject.get (commands (this s)) a0 = Some command ->
  nth argv (heap (snd (handle argv s))) [] = [a0].
Proof.
  intros Ha Hp Hc.
  rewrite (handle_found argv a0 rest command) by assumption.
  destruct (dispatch_calls (flags (this s)) command rest (spliced argv s))
    as (_ & Hheap & _).
  rewrite Hheap. unfold spliced. simpl. rewrite Ha. simpl.
  apply nth_update_same. now apply (nth_allocated _ _ a0 rest).
Qed.

(** X15: a second call of [handle] with the array of a first call that
    found its command finds the same command and parses nothing: the
    first call has left only the name in the array, so the parser is
    called with the empty list, and the array stays as it is. *)
Theorem handle_again_parses_nothing argv a0 rest (command : Command.t W) s :
  nth argv (heap s) [] = a0 :: rest ->
  String.prefix "-" a0 = false ->
  JsObject.get (commands (this s)) a0 = Some command ->
  let s1 := snd (handle argv s) in
  (exists later,
     trace (snd (handle argv s1)) =
     trace s1 ++ EvParse [] (Some command) :: later) /\
  heap (snd (handle argv s1)) = heap s1.
Proof.
  intros Ha Hp Hc s1.
  assert (Ha1 : nth argv (heap s1) [] = [a0])
    by now apply (handle_found_heap argv a0 rest command).
  assert (Hc1 : JsObject.get (commands (this s1)) a0 = Some command)
    by (unfold s1; now rewrite handle_keeps_kernel).
  rewrite (handle_found argv a0 [] command s1) by assumption.
  split.
  - destruct (dispatch_parses_tail (flags (this s1)) command []
                (spliced argv s1)) as (later & Hl).
    now exists later.
  - destruct (dispatch_calls (flags (this s1)) command [] (spliced argv s1))
      as (_ & Hheap & _).
    rewrite Hheap. unfold spliced. cbn [heap]. rewrite Ha1. cbn [firstn].
    rewrite <- Ha1. apply update_same.
Qed.

Lemma set_flags_keeps options flags : forall commandInstance k,
  JsObject.get commandInstance k <> None ->
  JsObject.get (set_flags options flags commandInstance) k <> None.
Proof.
  induction flags as [|f flags IH]; intros commandInstance k H; [exact H|].
  simpl. apply IH. now apply assign_keeps.
Qed.

Lemma set_flags_has options flags : forall commandInstance f,
  In f flags -> CommandFlag.name f <> JsObject.proto ->
  JsObject.get (set_flags options flags commandInstance) (CommandFlag.name f)
  <> None.
Proof.
  induction flags as [|f' flags IH]; intros commandInstance f Hin Hne;
    [contradiction|].
  simpl. destruct Hin as [->|Hin].
  - apply set_flags_keeps. now apply assign_has.
  - now apply IH.
Qed.

(** X16: a command with a flag called [handle], or a valid command with
    an argument called [handle], cannot be run: the field of that name
    hides the method, so once the parser and the flag handlers have
    returned and the instance is made, [handle] raises a TypeError and the
    body of the command is not called. *)
Theorem handle_field_hides_method argv a0 rest (command : Command.t W)
  options s s2 :
  nth argv (heap s) [] = a0 :: rest ->
  String.prefix "-" a0 = false ->
  JsObject.get (commands (this s)) a0 = Some command ->
  parse (flags (this s)) rest (Some command) = inr options ->
  _executeGlobalFlagsHandlers options (Some command)
    (snd (log (EvParse rest (Some command)) (spliced argv s))) = (inr tt, s2) ->
  (exists f, In f (Command.flags command) /\ CommandFlag.name f = "handle") \/
  (_validateCommand command = inr tt /\
   exists arg, In arg (Command.args command) /\ CommandArg.name arg = "handle") ->
  handle argv s =
  (inl (TypeError "commandInstance.handle is not a function"),
   snd (new command s2)).
Proof.
  intros Ha Hp Hc Hparse Hflags Hfield.
  rewrite (handle_found argv a0 rest command) by assumption.
  rewrite dispatch_steps, Hparse, Hflags. unfold call_handle.
  match goal with
  | |- context [JsObject.get ?i "handle"] =>
      assert (Hsome : JsObject.get i "handle" <> None)
  end.
  { destruct Hfield as [(f & Hin & Hn)|(Hvalid & arg & Hin & Hn)].
    - rewrite <- Hn. apply set_flags_has; [assumption|].
      rewrite Hn. discriminate.
    - apply set_flags_keeps. rewrite <- Hn.
      rewrite valid_arguments_are_fields by assumption.
      apply assign_every_arg_has; [assumption|]. rewrite Hn. discriminate. }
  match goal with
  | |- context [JsObject.get ?i "handle"] =>
      destruct (JsObject.get i "handle"); [reflexivity | contradiction]
  end.
Qed.

(** X17: in a registry of valid entries, which [register] keeps so, for
    an [argv[0]] that the registry holds or that is read from no
    prototype, every command that [handle] instantiates has passed
    [_validateCommand] and is the one registered under [argv[0]]. *)
Theorem handle_runs_valid_commands argv (command : Command.t W) calls s :
  JsObject.own_read (commands (this s)) (argv0_key (nth argv (heap s) [])) ->
  Forall valid_entry (commands (this s)) ->
  trace (snd (handle argv s)) = trace s ++ calls ->
  In (EvNew command) calls ->
  _validateCommand command = inr tt /\
  (exists a0 rest,
     nth argv (heap s) [] = a0 :: rest /\
     JsObject.get (commands (this s)) a0 = Some command) /\
  forall batch,
    Forall valid_entry (commands (this (snd (register batch s)))).
Proof.
  intros _ Hvalid Htrace Hin.
  assert (Hkeep : forall batch,
             Forall valid_entry (commands (this (snd (register batch s)))))
    by (intros batch; now apply register_keeps_valid).
  destruct (nth argv (heap s) []) as [|a0 rest] eqn:Ha.
  - rewrite handle_no_argv in Htrace by assumption. simpl in Htrace.
    rewrite <- (app_nil_r (trace s)) in Htrace at 1.
    apply app_inv_head in Htrace. subst calls. contradiction.
  - destruct (String.prefix "-" a0) eqn:Hp.
    + rewrite (handle_without_command argv a0 rest) in Htrace by assumption.
      destruct (flag_only_calls (flags (this s)) (a0 :: rest) s)
        as (_ & _ & (delta & Ht & Hall) & _).
      rewrite Ht in Htrace. apply app_inv_head in Htrace. subst calls.
      rewrite forallb_forall in Hall. specialize (Hall _ Hin). discriminate.
    + destruct (JsObject.get (commands (this s)) a0) as [found|] eqn:Hc.
      * rewrite (handle_found argv a0 rest found) in Htrace by assumption.
        destruct (dispatch_trace (flags (this s)) found rest (spliced argv s))
          as (handlers & last & Ht & Hall & Hlast & _).
        rewrite Ht in Htrace. simpl in Htrace.
        apply app_inv_head in Htrace. subst calls.
        assert (Hsame : command = found).
        { destruct Hin as [E|Hin]; [discriminate|].
          apply in_app_or in Hin as [Hin|Hin].
          - rewrite forallb_forall in Hall. specialize (Hall _ Hin).
            discriminate.
          - destruct Hlast as [->|[->|(i & ->)]].
            + contradiction.
            + destruct Hin as [E|[]]. now inversion E.
            + destruct Hin as [E|[E|[]]]; [now inversion E | discriminate]. }
        subst found. split; [|split; [|exact Hkeep]].
        -- apply obj_get_In in Hc. rewrite Forall_forall in Hvalid.
           now destruct (Hvalid _ Hc).
        -- now exists a0, rest.
      * rewrite (handle_not_found argv a0 rest) in Htrace by assumption.
        simpl in Htrace. rewrite <- (app_nil_r (trace s)) in Htrace at 1.
        apply app_inv_head in Htrace. subst calls. contradiction.
Qed.

End Reachability.

(** ** [getSuggestions] *)

Section SuggestionFacts.
Context {W : Type} {levenshtein : Levenshtein}.
Implicit Type s : State W.

Lemma getSuggestions_returns name distance s :
  getSuggestions name distance s = (inr (suggestions name distance s), s).
Proof. reflexivity. Qed.

Lemma in_suggestions name distance s n :
  In n (suggestions name distance s) <->
  In n (JsObject.keys (commands (this s))) /\
  (Z.of_nat (levenshtein_get name n) <=?
   match distance with Some d => d | None => 3%Z end)%Z = true.
Proof. unfold suggestions. simpl. apply filter_In. Qed.


(** X19: a larger distance keeps every suggestion of a smaller one; a
    distance left out is the distance 3; a negative distance suggests
    nothing. *)
Theorem suggestions_grow_with_distance name (d1 d2 : Z) s :
  (d1 <= d2)%Z ->
  incl (suggestions name (Some d1) s) (suggestions name (Some d2) s) /\
  getSuggestions name None s = getSuggestions name (Some 3%Z) s /\
  ((d2 < 0)%Z -> suggestions name (Some d2) s = []).
Proof.
  intros Hle. split; [|split; [reflexivity|]].
  - intros n Hin. apply in_suggestions in Hin as [Hin Hd].
    apply in_suggestions. split; [assumption|].
    apply Z.leb_le in Hd. apply Z.leb_le. lia.
  - intros Hneg. unfold suggestions. simpl.
    induction (JsObject.keys (commands (this s))) as [|n names IH];
      [reflexivity|].
    simpl. replace (Z.of_nat (levenshtein_get name n) <=? d2)%Z with false;
      [exact IH|].
    symmetry. apply Z.leb_gt. lia.
Qed.


End SuggestionFacts.

(** * The further properties on the fixtures *)

Module MoreExamples.
Import Fixtures MoreFixtures.


(** The flag [env] of [example/index.ts]. *)
Lemma flag_stores_descriptor_witness :
  GlobalFlag.type (assign_flag "env" (writes "NODE_ENV") string_option) =
  Some FlagString /\
  execute_handler (parse_words ["--env=prod"]) None "env"
    (snd (flag "env" (writes "NODE_ENV") string_option
            (start empty_kernel []))) =
  (inr tt,
   {| this := {| commands := []; flags := [("env", env_flag)] |};
      heap := [[]];
      world := ["NODE_ENV=prod"];
      trace :=
        [EvGlobalFlag "env" (VString "prod") (parse_words ["--env=prod"])
           None] |}).
Proof.
  pose proof (flag_stores_descriptor "env" (writes "NODE_ENV") string_option
                (start empty_kernel [])) as H.
  cbv zeta in H.
  destruct H as (_ & _ & _ & _ & _ & Htype & _ & _ & Hcall & _).
  split; [now apply Htype|].
  rewrite (Hcall (parse_words ["--env=prod"]) None eq_refl). reflexivity.
Defined.

(** The error of [Copy] names [target] and [files]. *)
Lemma optional_error_names_neighbours_witness :
  _validateCommand Copy = inl (OptionalBeforeRequired "target" "files") /\
  exists pre optional required post,
    Command.args Copy = pre ++ optional :: required :: post /\
    CommandArg.name optional = "target" /\
    CommandArg.required optional = false /\
    is_spread optional = false /\
    CommandArg.name required = "files" /\
    CommandArg.required required = true.
Proof.
  split; [reflexivity|].
  apply (optional_error_names_neighbours Copy "target" "files" eq_refl).
Defined.

(** The spread of [Move] comes before [target]. *)
Lemma spread_error_finds_spread_witness :
  _validateCommand Move = inl SpreadNotLast /\
  no_name (Command.commandName Move) = false.
Proof.
  split; [reflexivity|].
  apply (spread_error_finds_spread Move eq_refl).
Defined.

(** The three arguments of [Pack]. *)
Lemma validated_arguments_all_set_witness :
  _validateCommand Pack = inr tt /\
  NoDup (map CommandArg.name (Command.args Pack)) /\
  JsObject.get
    (set_args (parse_words ["a.zip"; "9"; "x"]) 0 (Command.args Pack)
       JsObject.empty) "files" =
  Some (FValue (VArray [VString "x"])).
Proof.
  assert (ND : NoDup (map CommandArg.name (Command.args Pack)))
    by (repeat constructor; simpl; intuition discriminate).
  assert (Hne : "files" <> JsObject.proto) by discriminate.
  split; [reflexivity|]. split; [exact ND|].
  apply (proj2 (proj2 (validated_arguments_all_set Pack
                         (parse_words ["a.zip"; "9"; "x"])
                         JsObject.empty eq_refl))
           2 (arg "files" false ArgSpread) eq_refl Hne ND).
Defined.

(** [greet Virk --env=prod]. *)
Lemma handle_calls_in_order_witness :
  JsObject.get (commands example_kernel) "greet" = Some Greet /\
  exists handlers last,
    trace (snd (handle (collaborators := collaborators) 0
                  (start example_kernel ["greet"; "Virk"; "--env=prod"]))) =
    EvParse ["Virk"; "--env=prod"] (Some Greet) :: handlers ++ last /\
    forallb is_flag_call handlers = true.
Proof.
  split; [reflexivity|].
  destruct (handle_calls_in_order (collaborators := collaborators) 0 "greet"
              ["Virk"; "--env=prod"] Greet
              (start example_kernel ["greet"; "Virk"; "--env=prod"])
              eq_refl eq_refl eq_refl)
    as (handlers & last & Ht & Hall & _).
  exists handlers, last. split; [exact Ht | exact Hall].
Defined.

(** [greet Virk 28] with the parser that rejects everything. *)
Lemma handle_parser_raises_witness :
  nth 0 (heap (start example_kernel ["greet"; "Virk"; "28"])) [] =
  ["greet"; "Virk"; "28"] /\
  nth 0 (heap (snd (handle (collaborators := strict) 0
                      (start example_kernel ["greet"; "Virk"; "28"])))) [] =
  ["greet"].
Proof.
  split; [reflexivity|].
  apply (proj2 (handle_parser_raises (collaborators := strict) 0 "greet"
                  ["Virk"; "28"] "invalid arguments"
                  (start example_kernel ["greet"; "Virk"; "28"]) eq_refl)
           Greet eq_refl eq_refl eq_refl).
Defined.

(** [greet --env=prod] when the handler of [env] raises. *)
Lemma handle_flag_handler_raises_witness :
  JsObject.get (commands failing_kernel) "greet" = Some Greet /\
  fst (handle (collaborators := collaborators) 0
         (start failing_kernel ["greet"; "--env=prod"])) =
  inl (Foreign "no such environment").
Proof.
  split; [reflexivity|].
  rewrite (proj1 (handle_flag_handler_raises (collaborators := collaborators)
                    0 "greet" ["--env=prod"] Greet
                    (parse_words ["--env=prod"])
                    (Foreign "no such environment")
                    (start failing_kernel ["greet"; "--env=prod"])
                    (snd (_executeGlobalFlagsHandlers
                            (parse_words ["--env=prod"]) (Some Greet)
                            (snd (log (EvParse ["--env=prod"] (Some Greet))
                                    (spliced 0
                                       (start failing_kernel
                                          ["greet"; "--env=prod"]))))))
                    eq_refl eq_refl eq_refl eq_refl eq_refl)).
  reflexivity.
Defined.

Lemma unknown_cmd_is_own :
  JsObject.own_read (commands example_kernel) "unknown:cmd".
Proof.
  right. split; [reflexivity|]. simpl. intuition discriminate.
Qed.

(** The error of [unknown:cmd]. *)
Lemma handle_errors_witness :
  JsObject.own_read (commands example_kernel) "unknown:cmd" /\
  fst (handle (collaborators := collaborators) 0
         (start example_kernel ["unknown:cmd"])) =
  inl (NotRegistered "unknown:cmd") /\
  ((exists a0 rest,
      nth 0 (heap (start example_kernel ["unknown:cmd"])) [] = a0 :: rest /\
      String.prefix "-" a0 = false /\
      JsObject.get (commands example_kernel) a0 = None /\
      ~ In a0 (JsObject.keys (commands example_kernel)) /\
      NotRegistered "unknown:cmd" = NotRegistered a0 /\
      snd (handle (collaborators := collaborators) 0
             (start example_kernel ["unknown:cmd"])) =
      start example_kernel ["unknown:cmd"]) \/
   (exists payload, NotRegistered "unknown:cmd" = Foreign payload) \/
   (NotRegistered "unknown:cmd" =
    TypeError "commandInstance.handle is not a function" /\
    exists a0 rest command before,
      nth 0 (heap (start example_kernel ["unknown:cmd"])) [] = a0 :: rest /\
      String.prefix "-" a0 = false /\
      JsObject.get (commands example_kernel) a0 = Some command /\
      trace (snd (handle (collaborators := collaborators) 0
                    (start example_kernel ["unknown:cmd"]))) =
      before ++ [EvNew command])).
Proof.
  split; [exact unknown_cmd_is_own|]. split; [reflexivity|].
  apply (handle_errors (collaborators := collaborators) 0
           (start example_kernel ["unknown:cmd"])
           (NotRegistered "unknown:cmd") unknown_cmd_is_own eq_refl).
Defined.

Lemma example_kernel_well_stored :
  Forall well_stored (commands example_kernel).
Proof. repeat constructor. Qed.

Lemma example_kernel_valid : Forall valid_entry (commands example_kernel).
Proof. repeat constructor. Qed.

(** The empty name on the kernel of the example. *)
Lemma empty_name_is_unknown_witness :
  Forall well_stored (commands (this (start example_kernel [""; "x"]))) /\
  handle (collaborators := collaborators) 0 (start example_kernel [""; "x"]) =
  (inl (NotRegistered ""), start example_kernel [""; "x"]).
Proof.
  split; [exact example_kernel_well_stored|].
  apply (empty_name_is_unknown (collaborators := collaborators) 0 ["x"]
           (start example_kernel [""; "x"]) example_kernel_well_stored
           eq_refl).
Defined.

(** A command called [--help]. *)
Lemma dash_name_is_not_dispatched_witness :
  _validateCommand DashHelp = inr tt /\
  fst (register [DashHelp] (start example_kernel ["--help"])) = inr tt.
Proof.
  split; [reflexivity|].
  apply (dash_name_is_not_dispatched (collaborators := collaborators)
           DashHelp "--help" 0 [] (start example_kernel ["--help"])
           eq_refl eq_refl eq_refl eq_refl).
Defined.

(** [greet Virk 28] twice. *)
Lemma handle_again_parses_nothing_witness :
  JsObject.get (commands example_kernel) "greet" = Some Greet /\
  heap (snd (handle (collaborators := collaborators) 0
               (snd (handle (collaborators := collaborators) 0
                       (start example_kernel ["greet"; "Virk"; "28"]))))) =
  heap (snd (handle (collaborators := collaborators) 0
               (start example_kernel ["greet"; "Virk"; "28"]))).
Proof.
  split; [reflexivity|].
  apply (handle_again_parses_nothing (collaborators := collaborators) 0
           "greet" ["Virk"; "28"] Greet
           (start example_kernel ["greet"; "Virk"; "28"])
           eq_refl eq_refl eq_refl).
Defined.

(** The flag [handle] of [Hidden]. *)
Lemma handle_field_hides_method_witness :
  In (string_flag "handle") (Command.flags Hidden) /\
  fst (handle (collaborators := collaborators) 0
         (start hidden_kernel ["hidden"])) =
  inl (TypeError "commandInstance.handle is not a function").
Proof.
  split; [now left|].
  rewrite (handle_field_hides_method (collaborators := collaborators) 0
             "hidden" [] Hidden (parse_words [])
             (start hidden_kernel ["hidden"])
             (snd (log (EvParse [] (Some Hidden))
                     (spliced 0 (start hidden_kernel ["hidden"]))))
             eq_refl eq_refl eq_refl eq_refl eq_refl
             (or_introl (ex_intro _ (string_flag "handle")
                           (conj (or_introl eq_refl) eq_refl)))).
  reflexivity.
Defined.

(** [greet Virk] instantiates [Greet], which is valid. *)
Lemma handle_runs_valid_commands_witness :
  JsObject.own_read (commands example_kernel) "greet" /\
  Forall valid_entry (commands (this (start example_kernel ["greet"; "Virk"]))) /\
  _validateCommand Greet = inr tt.
Proof.
  assert (Hown : JsObject.own_read (commands example_kernel) "greet")
    by (left; discriminate).
  split; [exact Hown|]. split; [exact example_kernel_valid|].
  apply (handle_runs_valid_commands (collaborators := collaborators) 0 Greet
           [EvParse ["Virk"] (Some Greet); EvNew Greet;
            EvHandle Greet
              [("parsed", FParsed (parse_words ["Virk"]));
               ("name", FValue (VString "Virk"));
               ("age", FValue VUndefined);
               ("env", FValue VUndefined);
               ("entrypoint", FValue VUndefined)]]
           (start example_kernel ["greet"; "Virk"])
           Hown example_kernel_valid eq_refl (or_intror (or_introl eq_refl))).
Defined.


(** The distances 2 and 3. *)
Lemma suggestions_grow_with_distance_witness :
  (2 <= 3)%Z /\
  incl
    (suggestions (levenshtein := levenshtein) "unknown:cmd" (Some 2%Z)
       (start suggestion_kernel []))
    (suggestions (levenshtein := levenshtein) "unknown:cmd" (Some 3%Z)
       (start suggestion_kernel [])).
Proof.
  assert (Hle : (2 <= 3)%Z) by lia.
  split; [exact Hle|].
  apply (suggestions_grow_with_distance (levenshtein := levenshtein)
           "unknown:cmd" 2%Z 3%Z (start suggestion_kernel []) Hle).
Defined.


(** The registrations of [example/index.ts]. *)
Example example_script_runs :
  example_script (start empty_kernel []) =
  (inr tt,
   start
     {| commands :=
          [stored GreetExample; stored MakeController; stored MakeModel];
        flags := [("env", env_flag)] |} []).
Proof. reflexivity. Qed.

(** Without validation the loop of [handle] leaves out what follows a
    spread: [Move] would get no [target]. *)
Example move_would_lose_target :
  JsObject.keys
    (set_args (parse_words ["a"; "b"]) 0 (Command.args Move) JsObject.empty) =
  ["files"].
Proof. reflexivity. Qed.

End MoreExamples.
